(** * The persisted graph schema and its transfer schemas (app/models.py)

    [app/models.py] is a set of SQLModel declarations: three table models
    ([Graph], [Node], [Edge]) and the non-persisted schemas used to validate
    requests and to shape responses.  The declarations are embedded as data
    (field declarations, relationship declarations, column types), one
    definition per class, and read by two small engines that stand for the
    frameworks the declarations are written for:

    - [validate]: the validation of a [table=False] schema (required and
      optional fields, defaults, [max_length]).  Values are taken as JSON
      gives them; the conversions of numbers from strings or booleans are
      left out, such values are refused.
    - [exec]: a relational store that enforces the declared columns
      (primary keys, foreign keys, VARCHAR(n), NUMERIC(p, s); NOT NULL by
      the type of the row) and applies the rule of the declared one-to-many
      relationships when a parent is deleted through the session:
      [cascade_delete=True] deletes the children, a plain relationship
      blanks the child foreign key.

    Python strings are modelled by [string] (a character per code point),
    integers by [Z], finite floats by dyadic rationals and finite decimals
    by a coefficient and a power of ten; timestamps are numbers supplied by
    the caller. *)

From Stdlib Require Import ZArith Lia.
From Stdlib Require Import Ascii String.
From stdpp Require Import base tactics option list strings.

Set Warnings "-register-all".

Open Scope string_scope.
Open Scope list_scope.
Open Scope Z_scope.

(** ** Values *)

(** A finite Python float, [fl_m * 2 ^ fl_e]. *)
Record pyfloat := PyFloat { fl_m : Z; fl_e : Z }.

(** A finite [decimal.Decimal], [d_coeff * 10 ^ d_exp]. *)
Record Decimal := Dec { d_coeff : Z; d_exp : Z }.

(** The values that travel through the schemas: JSON values, plus the
    decimals that a [Dict[str, Any]] may carry on output.  A [dict] is kept
    as its item list, in insertion order. *)
Inductive Value :=
| VNone
| VBool (b : bool)
| VInt (n : Z)
| VFloat (f : pyfloat)
| VDecimal (d : Decimal)
| VStr (s : string)
| VList (l : list Value)
| VDict (kvs : list (string * Value)).

(** [d.get(k)] *)
Fixpoint assoc (k : string) (kvs : list (string * Value)) : option Value :=
  match kvs with
  | [] => None
  | (k', v) :: rest => if String.eqb k k' then Some v else assoc k rest
  end.

(** ** Results *)

Inductive Result (E A : Type) :=
| Ok (a : A)
| Err (e : E).
Arguments Ok {E A} a.
Arguments Err {E A} e.

Definition is_Ok {E A} (r : Result E A) : Prop := ∃ a, r = Ok a.
Definition is_Err {E A} (r : Result E A) : Prop := ∃ e, r = Err e.

#[global] Instance Result_ret {E} : MRet (Result E) := λ A a, Ok a.
#[global] Instance Result_bind {E} : MBind (Result E) := λ A B f r,
  match r with
  | Ok a => f a
  | Err e => Err e
  end.
#[global] Instance Result_fmap {E} : FMap (Result E) := λ A B f r,
  match r with
  | Ok a => Ok (f a)
  | Err e => Err e
  end.

(** ** Field declarations *)

(** The annotation of a field, without its [Optional]. *)
Inductive PyType :=
| TInt
| TStr
| TFloat
| TDictAny                          (* Dict[str, Any] *)
| TList (elem : PyType)             (* List[elem] *)
| TModel (fields : list FieldDecl)  (* a nested SQLModel schema *)
with FieldDecl :=
| Fld (name : string) (ty : PyType)
      (optional : bool)             (* the annotation is Optional[...] *)
      (default : option Value)      (* Field(default=...); None: required *)
      (max_length : option nat).    (* Field(max_length=...) *)

Definition fld_name (f : FieldDecl) : string := let 'Fld n _ _ _ _ := f in n.
Definition fld_type (f : FieldDecl) : PyType := let 'Fld _ t _ _ _ := f in t.
Definition fld_optional (f : FieldDecl) : bool := let 'Fld _ _ o _ _ := f in o.
Definition fld_default (f : FieldDecl) : option Value := let 'Fld _ _ _ d _ := f in d.
Definition fld_max_length (f : FieldDecl) : option nat := let 'Fld _ _ _ _ m := f in m.

Definition Schema := list FieldDecl.

(** ** Validation of a [table=False] schema *)

Inductive ValidationError :=
| Missing (field : string)                       (* required field absent *)
| StringTooLong (field : string) (limit : nat)   (* max_length exceeded *)
| WrongType (field : string).                    (* the value does not fit *)

(** The [max_length] constraint of a field, on an already typed value. *)
Definition check_max_length (name : string) (ml : option nat) (v : Value)
  : Result ValidationError Value :=
  match ml, v with
  | Some n, VStr s => if (n <? String.length s)%nat
                      then Err (StringTooLong name n) else Ok v
  | _, _ => Ok v
  end.

(** [validate_type name t v]: [v] read at the annotation [t]; [name] is the
    field the value was supplied for.  An [int] is a valid [float]; keys of
    the input that the schema does not declare are ignored; the first error
    in declaration order is reported. *)
Fixpoint validate_type (name : string) (t : PyType) (v : Value)
  : Result ValidationError Value :=
  match t, v with
  | TInt, VInt n => Ok (VInt n)
  | TStr, VStr s => Ok (VStr s)
  | TFloat, VFloat f => Ok (VFloat f)
  | TFloat, VInt n => Ok (VFloat (PyFloat n 0))
  | TDictAny, VDict kvs => Ok (VDict kvs)
  | TList elem, VList vs =>
      VList <$>
        (fix items (vs : list Value) : Result ValidationError (list Value) :=
           match vs with
           | [] => Ok []
           | x :: rest =>
               x' ← validate_type name elem x;
               rest' ← items rest;
               Ok (x' :: rest')
           end) vs
  | TModel fields, VDict kvs =>
      VDict <$>
        (fix each (fs : list FieldDecl)
           : Result ValidationError (list (string * Value)) :=
           match fs with
           | [] => Ok []
           | Fld n ty opt dflt ml :: rest =>
               x ← match assoc n kvs with
                   | None =>
                       match dflt with
                       | Some d => Ok d
                       | None => Err (Missing n)
                       end
                   | Some VNone =>
                       if opt then Ok VNone else Err (WrongType n)
                   | Some v =>
                       v' ← validate_type n ty v;
                       check_max_length n ml v'
                   end;
               rest' ← each rest;
               Ok ((n, x) :: rest')
           end) fields
  | _, _ => Err (WrongType name)
  end.

(** One declared field against the input [kvs]. *)
Definition validate_field (kvs : list (string * Value)) (f : FieldDecl)
  : Result ValidationError Value :=
  match assoc (fld_name f) kvs with
  | None =>
      match fld_default f with
      | Some d => Ok d
      | None => Err (Missing (fld_name f))
      end
  | Some VNone =>
      if fld_optional f then Ok VNone else Err (WrongType (fld_name f))
  | Some v =>
      v' ← validate_type (fld_name f) (fld_type f) v;
      check_max_length (fld_name f) (fld_max_length f) v'
  end.

Fixpoint validate_fields (fs : list FieldDecl) (kvs : list (string * Value))
  : Result ValidationError (list (string * Value)) :=
  match fs with
  | [] => Ok []
  | f :: rest =>
      x ← validate_field kvs f;
      rest' ← validate_fields rest kvs;
      Ok ((fld_name f, x) :: rest')
  end.

(** The items of a list, each read at the annotation [t]. *)
Fixpoint validate_items (name : string) (t : PyType) (vs : list Value)
  : Result ValidationError (list Value) :=
  match vs with
  | [] => Ok []
  | x :: rest =>
      x' ← validate_type name t x;
      rest' ← validate_items name t rest;
      Ok (x' :: rest')
  end.

(** [Model.model_validate(kvs)]: the validated fields in declaration order. *)
Definition validate (sch : Schema) (kvs : list (string * Value))
  : Result ValidationError (list (string * Value)) :=
  validate_fields sch kvs.

(** ** The transfer schemas of app/models.py *)

Definition NodeData : Schema :=
  [ Fld "id"    TStr     false None         (Some 100%nat);
    Fld "label" TStr     true  (Some VNone) (Some 200%nat);
    Fld "x"     TFloat   true  (Some VNone) None;
    Fld "y"     TFloat   true  (Some VNone) None;
    Fld "style" TDictAny true  (Some VNone) None;
    Fld "data"  TDictAny true  (Some VNone) None ].

Definition EdgeData : Schema :=
  [ Fld "id"     TStr     true  (Some VNone) (Some 100%nat);
    Fld "source" TStr     false None         (Some 100%nat);
    Fld "target" TStr     false None         (Some 100%nat);
    Fld "label"  TStr     true  (Some VNone) (Some 200%nat);
    Fld "weight" TFloat   true  (Some VNone) None;
    Fld "style"  TDictAny true  (Some VNone) None;
    Fld "data"   TDictAny true  (Some VNone) None ].

Definition GraphInput : Schema :=
  [ Fld "name"        TStr     true (Some (VStr "Untitled Graph")) (Some 200%nat);
    Fld "description" TStr     true (Some (VStr ""))               (Some 1000%nat);
    Fld "nodes" (TList (TModel NodeData)) false (Some (VList [])) None;
    Fld "edges" (TList (TModel EdgeData)) false (Some (VList [])) None;
    Fld "properties"  TDictAny true (Some VNone) None ].

Definition GraphCreate : Schema :=
  [ Fld "name"        TStr     false None               (Some 200%nat);
    Fld "description" TStr     false (Some (VStr ""))   (Some 1000%nat);
    Fld "properties"  TDictAny false (Some (VDict [])) None ].

Definition GraphUpdate : Schema :=
  [ Fld "name"        TStr     true (Some VNone) (Some 200%nat);
    Fld "description" TStr     true (Some VNone) (Some 1000%nat);
    Fld "properties"  TDictAny true (Some VNone) None ].

Definition NodeCreate : Schema :=
  [ Fld "graph_id" TInt     false None              None;
    Fld "node_id"  TStr     false None              (Some 100%nat);
    Fld "label"    TStr     false (Some (VStr ""))  (Some 200%nat);
    Fld "x"        TFloat   true  (Some VNone)      None;
    Fld "y"        TFloat   true  (Some VNone)      None;
    Fld "style"    TDictAny false (Some (VDict [])) None;
    Fld "data"     TDictAny false (Some (VDict [])) None ].

Definition NodeUpdate : Schema :=
  [ Fld "label" TStr     true (Some VNone) (Some 200%nat);
    Fld "x"     TFloat   true (Some VNone) None;
    Fld "y"     TFloat   true (Some VNone) None;
    Fld "style" TDictAny true (Some VNone) None;
    Fld "data"  TDictAny true (Some VNone) None ].

Definition EdgeCreate : Schema :=
  [ Fld "graph_id"       TInt     false None              None;
    Fld "edge_id"        TStr     true  (Some VNone)      (Some 100%nat);
    Fld "source_node_id" TInt     false None              None;
    Fld "target_node_id" TInt     false None              None;
    Fld "label"          TStr     false (Some (VStr ""))  (Some 200%nat);
    Fld "weight"         TFloat   true  (Some VNone)      None;
    Fld "style"          TDictAny false (Some (VDict [])) None;
    Fld "data"           TDictAny false (Some (VDict [])) None ].

Definition EdgeUpdate : Schema :=
  [ Fld "label"  TStr     true (Some VNone) (Some 200%nat);
    Fld "weight" TFloat   true (Some VNone) None;
    Fld "style"  TDictAny true (Some VNone) None;
    Fld "data"   TDictAny true (Some VNone) None ].

Definition GraphResponse : Schema :=
  [ Fld "id"          TInt     false None None;
    Fld "name"        TStr     false None None;
    Fld "description" TStr     false None None;
    Fld "created_at"  TStr     false None None;
    Fld "updated_at"  TStr     false None None;
    Fld "properties"  TDictAny false None None;
    Fld "node_count"  TInt     false None None;
    Fld "edge_count"  TInt     false None None ].

Definition NodeResponse : Schema :=
  [ Fld "id"         TInt     false None None;
    Fld "node_id"    TStr     false None None;
    Fld "label"      TStr     false None None;
    Fld "x"          TFloat   true  None None;
    Fld "y"          TFloat   true  None None;
    Fld "style"      TDictAny false None None;
    Fld "data"       TDictAny false None None;
    Fld "created_at" TStr     false None None ].

Definition EdgeResponse : Schema :=
  [ Fld "id"             TInt     false None None;
    Fld "edge_id"        TStr     true  None None;
    Fld "source_node_id" TInt     false None None;
    Fld "target_node_id" TInt     false None None;
    Fld "label"          TStr     false None None;
    Fld "weight"         TFloat   true  None None;
    Fld "style"          TDictAny false None None;
    Fld "data"           TDictAny false None None;
    Fld "created_at"     TStr     false None None ].

Definition GraphExport : Schema :=
  [ Fld "name"        TStr             false None None;
    Fld "description" TStr             false None None;
    Fld "properties"  TDictAny         false None None;
    Fld "nodes"       (TList TDictAny) false None None;
    Fld "edges"       (TList TDictAny) false None None ].

(** ** The persisted models *)

(** [Relationship(back_populates=..., cascade_delete=...)], the one-to-many
    side.  [cascade_delete] is [False] when the declaration omits it. *)
Record Relationship := Rel {
  back_populates : string;
  cascade_delete : bool;
  foreign_keys : option string    (* sa_relationship_kwargs["foreign_keys"] *)
}.

(** A field [Field(decimal_places=..., max_digits=...)]: NUMERIC(p, s). *)
Record NumericType := Numeric { max_digits : Z; decimal_places : Z }.

Module Graph.
Definition tablename := "graphs".

Record t := Make {
  id : option Z;                        (* primary key, assigned on insert *)
  name : string;                        (* max_length=200 *)
  description : string;                 (* default "", max_length=1000 *)
  created_at : Z;
  updated_at : Z;
  properties : list (string * Value)    (* JSON column, default {} *)
}.

Definition name_max_length : nat := 200.
Definition description_max_length : nat := 1000.

Definition nodes : Relationship := Rel "graph" true None.
Definition edges : Relationship := Rel "graph" true None.

Definition with_id (k : Z) (g : t) : t :=
  Make (Some k) (name g) (description g) (created_at g) (updated_at g)
       (properties g).
End Graph.

Module Node.
Definition tablename := "nodes".

Record t := Make {
  id : option Z;                        (* primary key *)
  graph_id : Z;                         (* foreign key graphs.id *)
  node_id : string;                     (* max_length=100, index=True *)
  label : string;                       (* default "", max_length=200 *)
  x : option Decimal;                   (* NUMERIC(12, 6) *)
  y : option Decimal;                   (* NUMERIC(12, 6) *)
  style : list (string * Value);        (* JSON column, default {} *)
  data : list (string * Value);         (* JSON column, default {} *)
  created_at : Z
}.

Definition node_id_max_length : nat := 100.
Definition label_max_length : nat := 200.
Definition x_type : NumericType := Numeric 12 6.
Definition y_type : NumericType := Numeric 12 6.

Definition outgoing_edges : Relationship :=
  Rel "source_node" false (Some "[Edge.source_node_id]").
Definition incoming_edges : Relationship :=
  Rel "target_node" false (Some "[Edge.target_node_id]").

Definition with_id (k : Z) (n : t) : t :=
  Make (Some k) (graph_id n) (node_id n) (label n) (x n) (y n) (style n)
       (data n) (created_at n).
Definition with_xy (x' y' : option Decimal) (n : t) : t :=
  Make (id n) (graph_id n) (node_id n) (label n) x' y' (style n) (data n)
       (created_at n).
End Node.

Module Edge.
Definition tablename := "edges".

Record t := Make {
  id : option Z;                        (* primary key *)
  graph_id : Z;                         (* foreign key graphs.id *)
  edge_id : option string;              (* default None, max_length=100 *)
  source_node_id : Z;                   (* foreign key nodes.id *)
  target_node_id : Z;                   (* foreign key nodes.id *)
  label : string;                       (* default "", max_length=200 *)
  weight : option Decimal;              (* NUMERIC(12, 6) *)
  style : list (string * Value);
  data : list (string * Value);
  created_at : Z
}.

Definition edge_id_max_length : nat := 100.
Definition label_max_length : nat := 200.
Definition weight_type : NumericType := Numeric 12 6.

Definition with_id (k : Z) (e : t) : t :=
  Make (Some k) (graph_id e) (edge_id e) (source_node_id e)
       (target_node_id e) (label e) (weight e) (style e) (data e)
       (created_at e).
Definition with_weight (w : option Decimal) (e : t) : t :=
  Make (id e) (graph_id e) (edge_id e) (source_node_id e)
       (target_node_id e) (label e) w (style e) (data e) (created_at e).
End Edge.

(** ** Column types of the store *)

(** Division rounding half away from zero, as NUMERIC rounds. *)
Definition round_half_away (c q : Z) : Z :=
  Z.sgn c * ((2 * Z.abs c + q) / (2 * q)).

(** A decimal stored in a NUMERIC(p, s) column: rescaled to [s] places,
    refused when it needs more than [p] digits. *)
Definition to_numeric (ty : NumericType) (d : Decimal) : option Decimal :=
  let shift := d_exp d + decimal_places ty in
  let u := if 0 <=? shift then d_coeff d * 10 ^ shift
           else round_half_away (d_coeff d) (10 ^ (- shift)) in
  if Z.abs u <? 10 ^ max_digits ty
  then Some (Dec u (- decimal_places ty)) else None.

(** What a NUMERIC(p, s) column can hold. *)
Definition is_numeric (ty : NumericType) (d : Decimal) : Prop :=
  d_exp d = - decimal_places ty ∧ Z.abs (d_coeff d) < 10 ^ max_digits ty.

Definition fits (limit : nat) (s : string) : bool :=
  (String.length s <=? limit)%nat.

(** ** The store *)

Inductive DBError :=
| IntegrityError (constraint : string)   (* key, NOT NULL or foreign key *)
| DataError (column : string)            (* value too long, numeric overflow *)
| NotFound.

(** The three tables, rows in insertion order, and their id sequences. *)
Record DB := MkDB {
  graphs : list Graph.t;
  nodes : list Node.t;
  edges : list Edge.t;
  graphs_seq : Z;
  nodes_seq : Z;
  edges_seq : Z
}.

Definition empty_db : DB := MkDB [] [] [] 0 0 0.

Definition require (b : bool) (e : DBError) : Result DBError unit :=
  if b then Ok () else Err e.

(** Is there a row with primary key [k]? *)
Definition has_pk {A} (key : A → option Z) (k : Z) (rows : list A) : bool :=
  existsb (λ a, bool_decide (key a = Some k)) rows.

(** The row with primary key [k]. *)
Definition get {A} (key : A → option Z) (k : Z) (rows : list A) : option A :=
  List.find (λ a, bool_decide (key a = Some k)) rows.

(** The key of a new row: the one the object carries, else the next value of
    the table's sequence. *)
Definition assign_id (given : option Z) (seq : Z) : Z * Z :=
  match given with
  | Some k => (k, seq)
  | None => (seq + 1, seq + 1)
  end.

Definition numeric_column (ty : NumericType) (column : string)
    (v : option Decimal) : Result DBError (option Decimal) :=
  match v with
  | None => Ok None
  | Some d =>
      match to_numeric ty d with
      | Some d' => Ok (Some d')
      | None => Err (DataError column)
      end
  end.

Definition fits_opt (limit : nat) (s : option string) : bool :=
  match s with
  | None => true
  | Some s => fits limit s
  end.

(** The column checks of one row (everything but its primary key).  No
    column of the three tables is declared unique ([node_id] and [edge_id]
    are indexed, with [index=True]), so the primary key is the only
    uniqueness the store checks. *)
Definition check_graph (db : DB) (g : Graph.t) : Result DBError Graph.t :=
  require (fits Graph.name_max_length (Graph.name g))
          (DataError "graphs.name") ;;
  require (fits Graph.description_max_length (Graph.description g))
          (DataError "graphs.description") ;;
  Ok g.

Definition check_node (db : DB) (n : Node.t) : Result DBError Node.t :=
  require (has_pk Graph.id (Node.graph_id n) (graphs db))
          (IntegrityError "nodes.graph_id") ;;
  require (fits Node.node_id_max_length (Node.node_id n))
          (DataError "nodes.node_id") ;;
  require (fits Node.label_max_length (Node.label n))
          (DataError "nodes.label") ;;
  x' ← numeric_column Node.x_type "nodes.x" (Node.x n);
  y' ← numeric_column Node.y_type "nodes.y" (Node.y n);
  Ok (Node.with_xy x' y' n).

Definition check_edge (db : DB) (e : Edge.t) : Result DBError Edge.t :=
  require (has_pk Graph.id (Edge.graph_id e) (graphs db))
          (IntegrityError "edges.graph_id") ;;
  require (has_pk Node.id (Edge.source_node_id e) (nodes db))
          (IntegrityError "edges.source_node_id") ;;
  require (has_pk Node.id (Edge.target_node_id e) (nodes db))
          (IntegrityError "edges.target_node_id") ;;
  require (fits_opt Edge.edge_id_max_length (Edge.edge_id e))
          (DataError "edges.edge_id") ;;
  require (fits Edge.label_max_length (Edge.label e))
          (DataError "edges.label") ;;
  w' ← numeric_column Edge.weight_type "edges.weight" (Edge.weight e);
  Ok (Edge.with_weight w' e).

(** [session.add(obj); session.commit()] *)
Definition add_graph (db : DB) (g : Graph.t) : Result DBError (DB * Z) :=
  let '(k, seq) := assign_id (Graph.id g) (graphs_seq db) in
  require (negb (has_pk Graph.id k (graphs db))) (IntegrityError "graphs.id") ;;
  g' ← check_graph db g;
  Ok (MkDB (graphs db ++ [Graph.with_id k g']) (nodes db) (edges db)
           seq (nodes_seq db) (edges_seq db), k).

Definition add_node (db : DB) (n : Node.t) : Result DBError (DB * Z) :=
  let '(k, seq) := assign_id (Node.id n) (nodes_seq db) in
  require (negb (has_pk Node.id k (nodes db))) (IntegrityError "nodes.id") ;;
  n' ← check_node db n;
  Ok (MkDB (graphs db) (nodes db ++ [Node.with_id k n']) (edges db)
           (graphs_seq db) seq (edges_seq db), k).

Definition add_edge (db : DB) (e : Edge.t) : Result DBError (DB * Z) :=
  let '(k, seq) := assign_id (Edge.id e) (edges_seq db) in
  require (negb (has_pk Edge.id k (edges db))) (IntegrityError "edges.id") ;;
  e' ← check_edge db e;
  Ok (MkDB (graphs db) (nodes db) (edges db ++ [Edge.with_id k e'])
           (graphs_seq db) (nodes_seq db) seq, k).

(** Replace the row with key [k], in place. *)
Definition replace_row {A} (key : A → option Z) (k : Z) (new : A)
    (rows : list A) : list A :=
  (λ a, if bool_decide (key a = Some k) then new else a) <$> rows.

(** Attribute changes of a persistent object, flushed: the row keeps its
    key and passes the column checks again. *)
Definition update_graph (db : DB) (k : Z) (g : Graph.t) : Result DBError DB :=
  require (has_pk Graph.id k (graphs db)) NotFound ;;
  g' ← check_graph db g;
  Ok (MkDB (replace_row Graph.id k (Graph.with_id k g') (graphs db))
           (nodes db) (edges db)
           (graphs_seq db) (nodes_seq db) (edges_seq db)).

Definition update_node (db : DB) (k : Z) (n : Node.t) : Result DBError DB :=
  require (has_pk Node.id k (nodes db)) NotFound ;;
  n' ← check_node db n;
  Ok (MkDB (graphs db)
           (replace_row Node.id k (Node.with_id k n') (nodes db)) (edges db)
           (graphs_seq db) (nodes_seq db) (edges_seq db)).

Definition update_edge (db : DB) (k : Z) (e : Edge.t) : Result DBError DB :=
  require (has_pk Edge.id k (edges db)) NotFound ;;
  e' ← check_edge db e;
  Ok (MkDB (graphs db) (nodes db)
           (replace_row Edge.id k (Edge.with_id k e') (edges db))
           (graphs_seq db) (nodes_seq db) (edges_seq db)).

(** The children of a deleted parent, through a one-to-many relationship:
    with [cascade_delete] they are deleted with it; without, the unit of
    work blanks their foreign key, and the four foreign keys of the schema
    are declared [int], NOT NULL, so the flush is refused as soon as there
    is a child.  The result is the list of children to delete. *)
Definition orphans {A} (rel : Relationship) (fk : string) (children : list A)
  : Result DBError (list A) :=
  if cascade_delete rel then Ok children
  else match children with
       | [] => Ok []
       | _ :: _ => Err (IntegrityError fk)
       end.

(** The rows whose key is not among those of [gone]. *)
Definition without {A} (key : A → option Z) (gone : list A) (rows : list A)
  : list A :=
  filter (λ a, key a ∉ (key <$> gone)) rows.

(** [session.delete(edge); session.commit()] *)
Definition delete_edge (db : DB) (k : Z) : Result DBError DB :=
  require (has_pk Edge.id k (edges db)) NotFound ;;
  Ok (MkDB (graphs db) (nodes db)
           (filter (λ e, Edge.id e ≠ Some k) (edges db))
           (graphs_seq db) (nodes_seq db) (edges_seq db)).

(** [session.delete(node); session.commit()]: the edges of
    [Node.outgoing_edges] and [Node.incoming_edges] are the node's children. *)
Definition delete_node (db : DB) (k : Z) : Result DBError DB :=
  require (has_pk Node.id k (nodes db)) NotFound ;;
  out ← orphans Node.outgoing_edges "edges.source_node_id"
          (filter (λ e, Edge.source_node_id e = k) (edges db));
  inc ← orphans Node.incoming_edges "edges.target_node_id"
          (filter (λ e, Edge.target_node_id e = k) (edges db));
  Ok (MkDB (graphs db)
           (filter (λ n, Node.id n ≠ Some k) (nodes db))
           (without Edge.id (out ++ inc) (edges db))
           (graphs_seq db) (nodes_seq db) (edges_seq db)).

(** [session.delete(graph); session.commit()]: the rows of [Graph.nodes] and
    [Graph.edges] are the graph's children; the nodes deleted with the graph
    have children of their own, the edges that are not deleted already. *)
Definition delete_graph (db : DB) (k : Z) : Result DBError DB :=
  require (has_pk Graph.id k (graphs db)) NotFound ;;
  dn ← orphans Graph.nodes "nodes.graph_id"
         (filter (λ n, Node.graph_id n = k) (nodes db));
  de ← orphans Graph.edges "edges.graph_id"
         (filter (λ e, Edge.graph_id e = k) (edges db));
  let rest := without Edge.id de (edges db) in
  out ← orphans Node.outgoing_edges "edges.source_node_id"
          (filter (λ e, Some (Edge.source_node_id e) ∈ (Node.id <$> dn)) rest);
  inc ← orphans Node.incoming_edges "edges.target_node_id"
          (filter (λ e, Some (Edge.target_node_id e) ∈ (Node.id <$> dn)) rest);
  Ok (MkDB (filter (λ g, Graph.id g ≠ Some k) (graphs db))
           (without Node.id dn (nodes db))
           (without Edge.id (out ++ inc) rest)
           (graphs_seq db) (nodes_seq db) (edges_seq db)).

(** ** Reachable states *)

Inductive Op :=
| AddGraph (g : Graph.t)
| AddNode (n : Node.t)
| AddEdge (e : Edge.t)
| UpdateGraph (k : Z) (g : Graph.t)
| UpdateNode (k : Z) (n : Node.t)
| UpdateEdge (k : Z) (e : Edge.t)
| DeleteGraph (k : Z)
| DeleteNode (k : Z)
| DeleteEdge (k : Z).

Definition exec (db : DB) (op : Op) : Result DBError DB :=
  match op with
  | AddGraph g => fst <$> add_graph db g
  | AddNode n => fst <$> add_node db n
  | AddEdge e => fst <$> add_edge db e
  | UpdateGraph k g => update_graph db k g
  | UpdateNode k n => update_node db k n
  | UpdateEdge k e => update_edge db k e
  | DeleteGraph k => delete_graph db k
  | DeleteNode k => delete_node db k
  | DeleteEdge k => delete_edge db k
  end.

(** The states of the store: the empty one and every state a committed
    operation leads to. *)
Inductive reachable : DB → Prop :=
| reachable_empty : reachable empty_db
| reachable_exec db op db' :
    reachable db → exec db op = Ok db' → reachable db'.

(** Running a list of operations, stopping at the first refusal. *)
Fixpoint run (db : DB) (ops : list Op) : Result DBError DB :=
  match ops with
  | [] => Ok db
  | op :: rest => db' ← exec db op; run db' rest
  end.

(** ** Invariants of the store *)

(** Primary keys identify rows. *)
Definition pk_unique (db : DB) : Prop :=
  NoDup (Graph.id <$> graphs db) ∧
  NoDup (Node.id <$> nodes db) ∧
  NoDup (Edge.id <$> edges db).

(** The row [a] of [rows] is the one with key [k]. *)
Definition row_at {A} (key : A → option Z) (rows : list A) (k : Z) (a : A)
  : Prop :=
  a ∈ rows ∧ key a = Some k.

(** Foreign keys resolve. *)
Definition node_fk (db : DB) : Prop :=
  ∀ n, n ∈ nodes db → ∃ g, row_at Graph.id (graphs db) (Node.graph_id n) g.

Definition edge_fk (db : DB) : Prop :=
  ∀ e, e ∈ edges db →
    (∃ g, row_at Graph.id (graphs db) (Edge.graph_id e) g) ∧
    (∃ s, row_at Node.id (nodes db) (Edge.source_node_id e) s) ∧
    (∃ t, row_at Node.id (nodes db) (Edge.target_node_id e) t).

Definition numeric_opt (ty : NumericType) (v : option Decimal) : Prop :=
  match v with
  | None => True
  | Some d => is_numeric ty d
  end.

(** Decimal columns hold what their type allows. *)
Definition numeric_ok (db : DB) : Prop :=
  (∀ n, n ∈ nodes db →
     numeric_opt Node.x_type (Node.x n) ∧ numeric_opt Node.y_type (Node.y n)) ∧
  (∀ e, e ∈ edges db → numeric_opt Edge.weight_type (Edge.weight e)).

Record Inv (db : DB) : Prop := MkInv {
  inv_pk : pk_unique db;
  inv_node_fk : node_fk db;
  inv_edge_fk : edge_fk db;
  inv_numeric : numeric_ok db
}.

(** The endpoints of every edge lie in the edge's own graph. *)
Definition endpoints_in_graph (db : DB) : Prop :=
  ∀ e s t, e ∈ edges db →
    row_at Node.id (nodes db) (Edge.source_node_id e) s →
    row_at Node.id (nodes db) (Edge.target_node_id e) t →
    Node.graph_id s = Edge.graph_id e ∧ Node.graph_id t = Edge.graph_id e.

(** No two rows of [nodes] share a graph and a [node_id]. *)
Definition node_id_unique (db : DB) : Prop :=
  ∀ n m, n ∈ nodes db → m ∈ nodes db →
    Node.graph_id n = Node.graph_id m → Node.node_id n = Node.node_id m →
    n = m.

(** ** Import and export of a whole graph *)

Definition get_str (k : string) (kvs : list (string * Value)) : option string :=
  match assoc k kvs with
  | Some (VStr s) => Some s
  | _ => None
  end.

Definition get_dict (k : string) (kvs : list (string * Value))
  : option (list (string * Value)) :=
  match assoc k kvs with
  | Some (VDict d) => Some d
  | _ => None
  end.

Definition get_float (k : string) (kvs : list (string * Value))
  : option pyfloat :=
  match assoc k kvs with
  | Some (VFloat f) => Some f
  | _ => None
  end.

Definition get_list (k : string) (kvs : list (string * Value)) : list Value :=
  match assoc k kvs with
  | Some (VList l) => l
  | _ => []
  end.

(** [Decimal(f)], exact: [m * 2^e] is [m * 5^(-e) * 10^e] when [e < 0]. *)
Definition decimal_of_float (f : pyfloat) : Decimal :=
  if 0 <=? fl_e f then Dec (fl_m f * 2 ^ fl_e f) 0
  else Dec (fl_m f * 5 ^ (- fl_e f)) (fl_e f).

Definition opt_value {A} (inj : A → Value) (o : option A) : Value :=
  match o with
  | Some a => inj a
  | None => VNone
  end.

Inductive ImportError :=
| Invalid (e : ValidationError)     (* the input fails GraphInput *)
| Refused (e : DBError)             (* the store refuses a row *)
| UnknownNode (node_id : string)    (* an edge names a node that is not there *)
| Malformed.

Definition stored {A} (r : Result DBError A) : Result ImportError A :=
  match r with
  | Ok a => Ok a
  | Err e => Err (Refused e)
  end.

(** Modelled from the spec: the mapping of a validated [NodeData] onto a
    [Node] row of graph [gid] (section 2, data flow; the handler is not part
    of app/models.py).  The user-facing [id] becomes [node_id]; a field the
    input leaves out takes the default the [Node] column declares. *)
Definition node_of_data (now gid : Z) (v : Value) : Result ImportError Node.t :=
  match v with
  | VDict nd =>
      match get_str "id" nd with
      | Some nid =>
          Ok (Node.Make None gid nid
                (default "" (get_str "label" nd))
                (decimal_of_float <$> get_float "x" nd)
                (decimal_of_float <$> get_float "y" nd)
                (default [] (get_dict "style" nd))
                (default [] (get_dict "data" nd))
                now)
      | None => Err Malformed
      end
  | _ => Err Malformed
  end.

(** Modelled from the spec: the lookup of an endpoint, which is not part of
    app/models.py.  The key of the first node of graph [gid] that carries
    the user-facing identifier [nid]. *)
Definition find_node (db : DB) (gid : Z) (nid : string) : option Z :=
  n ← List.find (λ n, bool_decide (Node.graph_id n = gid ∧ Node.node_id n = nid))
                (nodes db);
  Node.id n.

Definition resolve (db : DB) (gid : Z) (nid : string) : Result ImportError Z :=
  match find_node db gid nid with
  | Some k => Ok k
  | None => Err (UnknownNode nid)
  end.

(** Modelled from the spec: the mapping of a validated [EdgeData] onto an
    [Edge] row of graph [gid]; [source] and [target] name nodes of the graph
    by their user-facing identifier (section 3, Edge: created only as a
    child of an existing Graph and two existing Nodes). *)
Definition edge_of_data (now gid : Z) (db : DB) (v : Value)
  : Result ImportError Edge.t :=
  match v with
  | VDict ed =>
      match get_str "source" ed, get_str "target" ed with
      | Some src, Some tgt =>
          s ← resolve db gid src;
          t ← resolve db gid tgt;
          Ok (Edge.Make None gid (get_str "id" ed) s t
                (default "" (get_str "label" ed))
                (decimal_of_float <$> get_float "weight" ed)
                (default [] (get_dict "style" ed))
                (default [] (get_dict "data" ed))
                now)
      | _, _ => Err Malformed
      end
  | _ => Err Malformed
  end.

(** Modelled from the spec: the nodes, then the edges, of the input are
    added one by one, in the order of the input; the handler that does so
    is not part of app/models.py. *)
Fixpoint import_nodes (now gid : Z) (db : DB) (vs : list Value)
  : Result ImportError DB :=
  match vs with
  | [] => Ok db
  | v :: rest =>
      n ← node_of_data now gid v;
      r ← stored (add_node db n);
      import_nodes now gid r.1 rest
  end.

Fixpoint import_edges (now gid : Z) (db : DB) (vs : list Value)
  : Result ImportError DB :=
  match vs with
  | [] => Ok db
  | v :: rest =>
      e ← edge_of_data now gid db v;
      r ← stored (add_edge db e);
      import_edges now gid r.1 rest
  end.

(** Modelled from the spec: creating a Graph with its nodes and edges from a
    [GraphInput] (section 8, round trip; section 2, data flow).  The input is
    validated against [GraphInput], then the graph row, its node rows and its
    edge rows are added in this order. *)
Definition import_graph (now : Z) (db : DB) (raw : list (string * Value))
  : Result ImportError (DB * Z) :=
  match validate GraphInput raw with
  | Err e => Err (Invalid e)
  | Ok v =>
      r ← stored (add_graph db
             (Graph.Make None
                (default "Untitled Graph" (get_str "name" v))
                (default "" (get_str "description" v))
                now now
                (default [] (get_dict "properties" v))));
      db1 ← import_nodes now r.2 r.1 (get_list "nodes" v);
      db2 ← import_edges now r.2 db1 (get_list "edges" v);
      Ok (db2, r.2)
  end.

(** Modelled from the spec: a node of the export, keyed as [NodeData]. *)
Definition export_node (n : Node.t) : Value :=
  VDict [ ("id", VStr (Node.node_id n));
          ("label", VStr (Node.label n));
          ("x", opt_value VDecimal (Node.x n));
          ("y", opt_value VDecimal (Node.y n));
          ("style", VDict (Node.style n));
          ("data", VDict (Node.data n)) ].

(** Modelled from the spec: an edge of the export, keyed as [EdgeData]; the
    endpoints are given by the user-facing identifiers of their nodes. *)
Definition export_edge (db : DB) (e : Edge.t) : option Value :=
  s ← get Node.id (Edge.source_node_id e) (nodes db);
  t ← get Node.id (Edge.target_node_id e) (nodes db);
  Some (VDict [ ("id", opt_value VStr (Edge.edge_id e));
                ("source", VStr (Node.node_id s));
                ("target", VStr (Node.node_id t));
                ("label", VStr (Edge.label e));
                ("weight", opt_value VDecimal (Edge.weight e));
                ("style", VDict (Edge.style e));
                ("data", VDict (Edge.data e)) ]).

(** Modelled from the spec: the export of graph [gid] in the shape of
    [GraphExport] (section 8, round trip): its name, description and
    properties, its nodes and its edges. *)
Definition export_graph (db : DB) (gid : Z) : option (list (string * Value)) :=
  g ← get Graph.id gid (graphs db);
  es ← mapM (export_edge db) (filter (λ e, Edge.graph_id e = gid) (edges db));
  Some [ ("name", VStr (Graph.name g));
         ("description", VStr (Graph.description g));
         ("properties", VDict (Graph.properties g));
         ("nodes", VList (export_node <$>
                            filter (λ n, Node.graph_id n = gid) (nodes db)));
         ("edges", VList es) ].






(** The schemas that carry a graph name, the schemas that carry a
    user-facing node identifier (with the field that holds it), and the
    update schemas. *)
Definition name_schemas : list Schema := [GraphInput; GraphCreate; GraphUpdate].
Definition node_id_schemas : list (Schema * string) :=
  [(NodeCreate, "node_id"); (NodeData, "id")].
Definition update_schemas : list Schema := [GraphUpdate; NodeUpdate; EdgeUpdate].

(** Keep of a request only the keys selected by [keep]. *)
Definition restrict (keep : string → bool) (raw : list (string * Value))
  : list (string * Value) :=
  filter (λ kv, keep kv.1 = true) raw.

(** Blank the fields that [keep] leaves out. *)
Definition blank (keep : string → bool) (v : list (string * Value))
  : list (string * Value) :=
  (λ kv, (kv.1, if keep kv.1 then kv.2 else VNone)) <$> v.

(** The string of [n] characters [c]. *)
Fixpoint str_repeat (c : Ascii.ascii) (n : nat) : string :=
  match n with
  | O => ""
  | S n => String c (str_repeat c n)
  end.

(** The validated form of a request that supplies nothing, when every field
    defaults to [None]. *)
Definition all_none (sch : Schema) : list (string * Value) :=
  (λ f, (fld_name f, VNone)) <$> sch.

(** The annotations without nested schemas. *)
Definition scalar (t : PyType) : Prop :=
  match t with
  | TInt | TStr | TFloat | TDictAny => True
  | _ => False
  end.


(** ** Sample states *)

Definition sample_graph : Graph.t := Graph.Make None "G1" "" 0 0 [].
Definition node_a : Node.t := Node.Make None 1 "n1" "A" None None [] [] 0.
Definition node_b : Node.t :=
  Node.Make None 1 "n2" "B" (Some (Dec 25 (-1))) (Some (Dec (-1) 0)) [] [] 0.
Definition edge_ab : Edge.t :=
  Edge.Make None 1 None 1 2 "" (Some (Dec 15 (-1))) [] [] 0.
(** [node_b] as the store keeps it, under key 2. *)
Definition stored_b : Node.t :=
  Node.with_xy (Some (Dec 2500000 (-6))) (Some (Dec (-1000000) (-6)))
    (Node.with_id 2 node_b).
(** [edge_ab] as the store keeps it, under key 1. *)
Definition stored_ab : Edge.t :=
  Edge.with_weight (Some (Dec 1500000 (-6))) (Edge.with_id 1 edge_ab).
(** An edge of graph 2 between nodes of graph 1. *)
Definition edge_across : Edge.t := Edge.Make None 2 None 1 2 "" None [] [] 0.

Definition state_of (ops : list Op) : DB :=
  match run empty_db ops with
  | Ok db => db
  | Err _ => empty_db
  end.

(** One graph with two nodes and the edge between them. *)
Definition ops_one : list Op :=
  [AddGraph sample_graph; AddNode node_a; AddNode node_b; AddEdge edge_ab].
Definition db_one : DB := Eval vm_compute in state_of ops_one.

(** Two graphs; the nodes are in graph 1, the edge is in graph 2. *)
Definition ops_across : list Op :=
  [AddGraph sample_graph; AddGraph sample_graph; AddNode node_a;
   AddNode node_b; AddEdge edge_across].
Definition db_across : DB := Eval vm_compute in state_of ops_across.

(** One graph, the same node added twice. *)
Definition ops_twice : list Op :=
  [AddGraph sample_graph; AddNode node_a; AddNode node_a].
Definition db_twice : DB := Eval vm_compute in state_of ops_twice.

(** Deleting a node deletes the edges that start or end at it, whatever the
    state and the node. *)
Definition delete_node_cascades : Prop :=
  ∀ db k n, reachable db → row_at Node.id (nodes db) k n →
    ∃ db', delete_node db k = Ok db' ∧
           ∀ e, e ∈ edges db' →
                Edge.source_node_id e ≠ k ∧ Edge.target_node_id e ≠ k.

(** The value [x] has the form of the annotation [t]. *)
Definition shape (t : PyType) (x : Value) : Prop :=
  match t, x with
  | TInt, VInt _ | TStr, VStr _ | TFloat, VFloat _ | TDictAny, VDict _
  | TList _, VList _ | TModel _, VDict _ => True
  | _, _ => False
  end.



(** The example of section 8: graph G1, nodes n1 (A) and n2 (B), an edge
    from n1 to n2 of weight 1.5. *)
Definition input_G1 : list (string * Value) :=
  [ ("name", VStr "G1");
    ("nodes", VList [ VDict [("id", VStr "n1"); ("label", VStr "A")];
                      VDict [("id", VStr "n2"); ("label", VStr "B")] ]);
    ("edges", VList [ VDict [ ("source", VStr "n1"); ("target", VStr "n2");
                              ("weight", VFloat (PyFloat 3 (-1))) ] ]) ].





(** The state after the import of [input_G1] into the empty store. *)
Definition db_G1 : DB :=
  Eval vm_compute in
    match import_graph 0 empty_db input_G1 with
    | Ok r => r.1
    | Err _ => empty_db
    end.

(** ** The schemas taken together *)

(** Every [table=False] schema of app/models.py. *)
Definition all_schemas : list Schema :=
  [ NodeData; EdgeData; GraphInput; GraphCreate; GraphUpdate; NodeCreate;
    NodeUpdate; EdgeCreate; EdgeUpdate; GraphResponse; NodeResponse;
    EdgeResponse; GraphExport ].

(** Those without nested values. *)
Definition flat_schemas : list Schema :=
  [ NodeData; EdgeData; GraphCreate; GraphUpdate; NodeCreate; NodeUpdate;
    EdgeCreate; EdgeUpdate; GraphResponse; NodeResponse; EdgeResponse ].

(** [max_length] is only ever put on a [str] field. *)
Definition limit_on_str (f : FieldDecl) : bool :=
  match fld_max_length f, fld_type f with
  | Some _, TStr => true
  | Some _, _ => false
  | None, _ => true
  end.

(** The default of a field, supplied explicitly, validates to itself. *)
Definition default_ok (f : FieldDecl) : Prop :=
  match fld_default f with
  | Some d => validate_field [(fld_name f, d)] f = Ok d
  | None => True
  end.

(** A value validated at [t] validates to itself at [t]. *)
Definition idem_type (t : PyType) : Prop :=
  ∀ n v v', validate_type n t v = Ok v' → validate_type n t v' = Ok v'.

(** A schema whose validated results validate to themselves. *)
Definition idem_schema (sch : Schema) : Prop :=
  ∀ raw v, validate sch raw = Ok v → validate sch v = Ok v.

(** The items of a list, validated one by one against a nested schema. *)
Definition item_validated (sch : Schema) (x y : Value) : Prop :=
  ∃ kvs d, x = VDict kvs ∧ y = VDict d ∧ validate sch kvs = Ok d.

Definition item_rejected (sch : Schema) (x : Value) : Prop :=
  match x with
  | VDict kvs => is_Err (validate sch kvs)
  | _ => True
  end.

(** ** Further invariants of the store *)

(** Every stored row carries its primary key. *)
Definition keyed (db : DB) : Prop :=
  (∀ g, g ∈ graphs db → is_Some (Graph.id g)) ∧
  (∀ n, n ∈ nodes db → is_Some (Node.id n)) ∧
  (∀ e, e ∈ edges db → is_Some (Edge.id e)).

Definition fits_prop (limit : nat) (s : string) : Prop :=
  (String.length s ≤ limit)%nat.

(** Every stored string fits the length its column declares. *)
Definition lengths_ok (db : DB) : Prop :=
  (∀ g, g ∈ graphs db →
     fits_prop Graph.name_max_length (Graph.name g) ∧
     fits_prop Graph.description_max_length (Graph.description g)) ∧
  (∀ n, n ∈ nodes db →
     fits_prop Node.node_id_max_length (Node.node_id n) ∧
     fits_prop Node.label_max_length (Node.label n)) ∧
  (∀ e, e ∈ edges db →
     (∀ s, Edge.edge_id e = Some s → fits_prop Edge.edge_id_max_length s) ∧
     fits_prop Edge.label_max_length (Edge.label e)).

Record Inv2 (db : DB) : Prop := MkInv2 {
  inv_keyed : keyed db;
  inv_lengths : lengths_ok db
}.

(** The tables of [db'] are those of [db] (the sequences may differ). *)
Definition same_tables (db db' : DB) : Prop :=
  graphs db' = graphs db ∧ nodes db' = nodes db ∧ edges db' = edges db.

(** An edge of another graph that starts or ends at a node of graph [k]. *)
Definition foreign_edge (db : DB) (k : Z) (e : Edge.t) : Prop :=
  e ∈ edges db ∧ Edge.graph_id e ≠ k ∧
  ∃ n, n ∈ nodes db ∧ Node.graph_id n = k ∧
       (Node.id n = Some (Edge.source_node_id e) ∨
        Node.id n = Some (Edge.target_node_id e)).

(** ** The relationships, as the session loads them *)





(** Sample requests. *)
Definition request_node : list (string * Value) :=
  [ ("graph_id", VInt 1); ("node_id", VStr "n1"); ("x", VInt 2);
    ("colour", VStr "red") ].
Definition request_node_validated : list (string * Value) :=
  [ ("graph_id", VInt 1); ("node_id", VStr "n1"); ("label", VStr "");
    ("x", VFloat (PyFloat 2 0)); ("y", VNone); ("style", VDict []);
    ("data", VDict []) ].

(** One graph with one node, and with two nodes. *)
Definition ops_one_node : list Op := [AddGraph sample_graph; AddNode node_a].
Definition db_one_node : DB := Eval vm_compute in state_of ops_one_node.

(** [db_across] once graph 2 is deleted. *)
Definition db_across_less : DB :=
  Eval vm_compute in
    match delete_graph db_across 2 with
    | Ok db => db
    | Err _ => empty_db
    end.
(** * Validation: lemmas *)

Lemma assoc_restrict keep raw k :
  assoc k (restrict keep raw) = if keep k then assoc k raw else None.
Proof.
  induction raw as [|[k' v] raw IH]; simpl.
  - by destruct (keep k).
  - unfold restrict in *. rewrite filter_cons. simpl.
    destruct (decide (keep k' = true)) as [Hk|Hk]; simpl.
    + destruct (String.eqb_spec k k') as [->|Hne].
      * by rewrite Hk.
      * apply IH.
    + destruct (String.eqb_spec k k') as [->|Hne].
      * apply not_true_is_false in Hk. rewrite Hk in IH |- *. apply IH.
      * apply IH.
Qed.

Lemma validate_type_model n fs kvs :
  validate_type n (TModel fs) (VDict kvs) = VDict <$> validate_fields fs kvs.
Proof.
  simpl. f_equal.
  induction fs as [|[m ty opt dflt ml] fs IH]; [done|].
  simpl. unfold validate_field. simpl. by rewrite IH.
Qed.

Lemma validate_type_list n t vs :
  validate_type n (TList t) (VList vs) = VList <$> validate_items n t vs.
Proof.
  simpl. f_equal. induction vs as [|x vs IH]; [done|]. simpl. by rewrite IH.
Qed.

Lemma validate_items_cons n t x vs :
  validate_items n t (x :: vs) =
  x' ← validate_type n t x; rest' ← validate_items n t vs; Ok (x' :: rest').
Proof. done. Qed.

Lemma validate_type_Ok_str n t v s :
  validate_type n t v = Ok (VStr s) → t = TStr ∧ v = VStr s.
Proof.
  destruct t, v; try done.
  - by intros [= ->].
  - rewrite validate_type_list. by destruct (validate_items _ _ _).
  - rewrite validate_type_model. by destruct (validate_fields _ _).
Qed.

Lemma validate_fields_Ok_inv f fs raw v :
  validate_fields (f :: fs) raw = Ok v →
  ∃ x v', validate_field raw f = Ok x ∧ validate_fields fs raw = Ok v' ∧
          v = (fld_name f, x) :: v'.
Proof.
  simpl. destruct (validate_field raw f) as [x|e]; simpl; [|done].
  destruct (validate_fields fs raw) as [v'|e]; simpl; [|done].
  intros [= <-]. eauto.
Qed.

Lemma validate_fields_names fs raw v :
  validate_fields fs raw = Ok v → v.*1 = fld_name <$> fs.
Proof.
  revert v. induction fs as [|f fs IH]; intros v.
  - by intros [= <-].
  - intros (x & v' & _ & Hv' & ->)%validate_fields_Ok_inv.
    simpl. f_equal. by apply IH.
Qed.

(** A validated field is read back from the result under its name. *)
Lemma validate_fields_lookup fs raw v f :
  NoDup (fld_name <$> fs) →
  validate_fields fs raw = Ok v → f ∈ fs →
  ∃ x, validate_field raw f = Ok x ∧ assoc (fld_name f) v = Some x.
Proof.
  revert v. induction fs as [|g fs IH]; intros v Hnd Hv Hf.
  - by apply elem_of_nil in Hf.
  - apply validate_fields_Ok_inv in Hv as (x & v' & Hx & Hv' & ->).
    apply NoDup_cons in Hnd as [Hg Hnd]. simpl.
    apply elem_of_cons in Hf as [->|Hf].
    + exists x. by rewrite String.eqb_refl.
    + destruct (IH v' Hnd Hv' Hf) as (y & Hy & Hl).
      exists y. split; [done|].
      destruct (String.eqb_spec (fld_name f) (fld_name g)) as [Heq|]; [|done].
      exfalso. apply Hg. rewrite <- Heq. apply list_elem_of_fmap. eauto.
Qed.

(** One failing field fails the schema. *)
Lemma validate_fields_Err fs raw f :
  f ∈ fs → is_Err (validate_field raw f) → is_Err (validate_fields fs raw).
Proof.
  induction fs as [|g fs IH]; intros Hf Herr.
  - by apply elem_of_nil in Hf.
  - simpl. apply elem_of_cons in Hf as [->|Hf].
    + destruct Herr as [e ->]. by exists e.
    + destruct (validate_field raw g) as [x|e]; simpl; [|by exists e].
      destruct (IH Hf Herr) as [e ->]. by exists e.
Qed.

(** The error of a schema is the error of one of its fields. *)
Lemma validate_fields_Err_inv fs raw e :
  validate_fields fs raw = Err e → ∃ f, f ∈ fs ∧ validate_field raw f = Err e.
Proof.
  induction fs as [|g fs IH]; [done|]. simpl.
  destruct (validate_field raw g) as [x|e'] eqn:Hg; simpl.
  - destruct (validate_fields fs raw) as [v'|e'']; simpl; [done|].
    intros [= ->]. destruct IH as (f & Hf & He); [done|].
    exists f. split; [by apply elem_of_cons; right|done].
  - intros [= ->]. exists g. split; [apply elem_of_cons; by left|done].
Qed.

(** A string over the limit of a [str] field is refused. *)
Lemma validate_field_too_long raw f s n :
  fld_type f = TStr → fld_max_length f = Some n →
  assoc (fld_name f) raw = Some (VStr s) → (n < String.length s)%nat →
  validate_field raw f = Err (StringTooLong (fld_name f) n).
Proof.
  intros Ht Hm Hs Hlen. unfold validate_field. rewrite Hs, Ht, Hm. simpl.
  by apply Nat.ltb_lt in Hlen as ->.
Qed.

Lemma validate_type_scalar n t v e :
  scalar t → validate_type n t v = Err e → e = WrongType n.
Proof. destruct t, v; simpl; try done; by intros _ [= <-]. Qed.

Lemma validate_items_scalar n t vs e :
  scalar t → validate_items n t vs = Err e → e = WrongType n.
Proof.
  intros Ht. induction vs as [|x vs IH]; simpl; [done|].
  destruct (validate_type n t x) as [x'|e'] eqn:Hx; simpl.
  - destruct (validate_items n t vs) as [r|e'']; simpl; [done|].
    intros [= <-]. by apply IH.
  - intros [= <-]. by eapply validate_type_scalar.
Qed.

(** A length error names a field of the schema, its limit, and a string of
    the input that exceeds it, unless it comes from inside a nested value. *)
Lemma validate_field_StringTooLong raw f g n :
  validate_field raw f = Err (StringTooLong g n) →
  (g = fld_name f ∧ fld_max_length f = Some n ∧
   ∃ s, assoc g raw = Some (VStr s) ∧ (n < String.length s)%nat) ∨
  (∃ v, assoc (fld_name f) raw = Some v ∧
        validate_type (fld_name f) (fld_type f) v = Err (StringTooLong g n)).
Proof.
  unfold validate_field.
  destruct (assoc (fld_name f) raw) as [v|] eqn:Hv.
  2:{ by destruct (fld_default f). }
  intros H.
  assert (Hb : (v' ← validate_type (fld_name f) (fld_type f) v;
                check_max_length (fld_name f) (fld_max_length f) v')
               = Err (StringTooLong g n)).
  { destruct v; first [exact H | by destruct (fld_optional f)]. }
  clear H. revert Hb.
  destruct (validate_type (fld_name f) (fld_type f) v) as [v'|e] eqn:Hty; simpl.
  - unfold check_max_length.
    destruct (fld_max_length f) as [m|]; [|done].
    destruct v'; try done.
    destruct (m <? String.length s)%nat eqn:Hlen; [|done].
    intros [= <- <-]. left. split_and!; [done..|].
    apply Nat.ltb_lt in Hlen.
    apply validate_type_Ok_str in Hty as [_ ->]. eauto.
  - intros [= ->]. right. eauto.
Qed.

(** In a schema without nested values, a length error always points at a
    string of the input that exceeds the limit of its field. *)
Lemma flat_StringTooLong fs raw g n :
  Forall (λ f, scalar (fld_type f)) fs →
  validate_fields fs raw = Err (StringTooLong g n) →
  ∃ f, f ∈ fs ∧ g = fld_name f ∧ fld_max_length f = Some n ∧
       ∃ s, assoc g raw = Some (VStr s) ∧ (n < String.length s)%nat.
Proof.
  intros Hflat (f & Hf & He)%validate_fields_Err_inv.
  apply validate_field_StringTooLong in He as [(-> & Hm & Hs)|(v & _ & Hv)].
  - eauto.
  - rewrite Forall_forall in Hflat.
    by apply validate_type_scalar in Hv; [|auto].
Qed.

(** A length error from a list of nested values names a field of the
    nested schema. *)
Lemma items_StringTooLong n0 fs vs g n :
  Forall (λ f, scalar (fld_type f)) fs →
  validate_items n0 (TModel fs) vs = Err (StringTooLong g n) →
  g ∈ fld_name <$> fs.
Proof.
  intros Hflat. induction vs as [|x vs IH]; [done|].
  rewrite validate_items_cons.
  destruct (validate_type n0 (TModel fs) x) as [x'|e] eqn:Hx.
  - simpl. destruct (validate_items n0 (TModel fs) vs); simpl; [done|].
    intros [= ->]. by apply IH.
  - simpl. intros [= ->].
    destruct x; try done. rewrite validate_type_model in Hx.
    destruct (validate_fields fs kvs) as [|e] eqn:Hfs; simplify_eq/=.
    apply flat_StringTooLong in Hfs as (f & Hf & -> & _); [|done].
    apply list_elem_of_fmap. eauto.
Qed.

Ltac flat := repeat constructor.
Ltac each_member H :=
  repeat (apply elem_of_cons in H as [H|H]); [..|by apply elem_of_nil in H].

(** The length errors of [GraphInput]: its own two limited fields, or a
    field of a nested node or edge. *)
Lemma GraphInput_StringTooLong raw g n :
  validate GraphInput raw = Err (StringTooLong g n) →
  (∃ f, f ∈ GraphInput ∧ g = fld_name f ∧ fld_max_length f = Some n ∧
        ∃ s, assoc g raw = Some (VStr s) ∧ (n < String.length s)%nat) ∨
  g ∈ fld_name <$> (NodeData ++ EdgeData).
Proof.
  intros (f & Hf & He)%validate_fields_Err_inv.
  apply validate_field_StringTooLong in He as [(-> & Hm & Hs)|(v & _ & Hv)].
  { left. eauto 6. }
  right. rewrite fmap_app, elem_of_app.
  each_member Hf; subst f; cbn [fld_name fld_type] in Hv;
    try (by apply validate_type_scalar in Hv).
  - left. destruct v; try done. rewrite validate_type_list in Hv.
    destruct (validate_items _ _ _) eqn:Hi; simpl in Hv; [done|].
    injection Hv as ->. eapply items_StringTooLong; [|done]. flat.
  - right. destruct v; try done. rewrite validate_type_list in Hv.
    destruct (validate_items _ _ _) eqn:Hi; simpl in Hv; [done|].
    injection Hv as ->. eapply items_StringTooLong; [|done]. flat.
Qed.

(** Leaving a field out of a request reads as its default; keeping it
    reads as before. *)
Lemma validate_field_restrict keep raw f :
  validate_field (restrict keep raw) f =
  if keep (fld_name f) then validate_field raw f
  else match fld_default f with
       | Some d => Ok d
       | None => Err (Missing (fld_name f))
       end.
Proof.
  unfold validate_field. rewrite assoc_restrict. by destruct (keep _).
Qed.

Lemma validate_fields_restrict keep fs raw v :
  Forall (λ f, fld_default f = Some VNone) fs →
  validate_fields fs raw = Ok v →
  validate_fields fs (restrict keep raw) = Ok (blank keep v).
Proof.
  revert v. induction fs as [|f fs IH]; intros v Hd Hv.
  - by injection Hv as <-.
  - apply validate_fields_Ok_inv in Hv as (x & v' & Hx & Hv' & ->).
    apply Forall_cons in Hd as [Hf Hd]. simpl.
    rewrite validate_field_restrict, (IH v' Hd Hv'), Hx, Hf.
    by destruct (keep (fld_name f)).
Qed.

(** * Validation: the claims *)

(** C4.  Field-length validation rejects out-of-range inputs.  Every schema
    that carries a graph name ([GraphInput], [GraphCreate], [GraphUpdate])
    refuses an input whose [name] is longer than 200 characters, and every
    schema that carries a user-facing node identifier ([NodeCreate.node_id],
    [NodeData.id]) refuses an input whose identifier is longer than 100
    characters.  Conversely a length error on that field is only ever
    reported for a string of the input that exceeds the limit, so inputs
    within the limits are not rejected on length grounds. *)
Theorem length_limits_enforced :
  (∀ sch raw s, sch ∈ name_schemas →
     assoc "name" raw = Some (VStr s) → (200 < String.length s)%nat →
     is_Err (validate sch raw)) ∧
  (∀ sch fld raw s, (sch, fld) ∈ node_id_schemas →
     assoc fld raw = Some (VStr s) → (100 < String.length s)%nat →
     is_Err (validate sch raw)) ∧
  (∀ sch raw n, sch ∈ name_schemas →
     validate sch raw = Err (StringTooLong "name" n) →
     n = 200%nat ∧
     ∃ s, assoc "name" raw = Some (VStr s) ∧ (200 < String.length s)%nat) ∧
  (∀ sch fld raw n, (sch, fld) ∈ node_id_schemas →
     validate sch raw = Err (StringTooLong fld n) →
     n = 100%nat ∧
     ∃ s, assoc fld raw = Some (VStr s) ∧ (100 < String.length s)%nat).
Proof.
  split_and!.
  - intros sch raw s Hsch Hs Hlen. unfold validate.
    each_member Hsch; subst sch.
    + eapply (validate_fields_Err _ _ (Fld "name" TStr true _ _)).
      { apply elem_of_cons; by left. }
      eexists. by eapply validate_field_too_long.
    + eapply (validate_fields_Err _ _ (Fld "name" TStr false _ _)).
      { apply elem_of_cons; by left. }
      eexists. by eapply validate_field_too_long.
    + eapply (validate_fields_Err _ _ (Fld "name" TStr true _ _)).
      { apply elem_of_cons; by left. }
      eexists. by eapply validate_field_too_long.
  - intros sch fld raw s Hsch Hs Hlen. unfold validate.
    each_member Hsch; simplify_eq.
    + eapply (validate_fields_Err _ _ (Fld "node_id" TStr false _ _)).
      { apply elem_of_cons; right. apply elem_of_cons; by left. }
      eexists. by eapply validate_field_too_long.
    + eapply (validate_fields_Err _ _ (Fld "id" TStr false _ _)).
      { apply elem_of_cons; by left. }
      eexists. by eapply validate_field_too_long.
  - intros sch raw n Hsch He.
    each_member Hsch; subst sch.
    + apply GraphInput_StringTooLong in He as [(f & Hf & Hg & Hm & Hs)|Hin].
      * each_member Hf; subst f; simplify_eq/=. eauto.
      * each_member Hin; simplify_eq.
    + apply flat_StringTooLong in He as (f & Hf & Hg & Hm & Hs); [|flat].
      each_member Hf; subst f; simplify_eq/=. eauto.
    + apply flat_StringTooLong in He as (f & Hf & Hg & Hm & Hs); [|flat].
      each_member Hf; subst f; simplify_eq/=. eauto.
  - intros sch fld raw n Hsch He.
    each_member Hsch; simplify_eq.
    + apply flat_StringTooLong in He as (f & Hf & Hg & Hm & Hs); [|flat].
      each_member Hf; subst f; simplify_eq/=. eauto.
    + apply flat_StringTooLong in He as (f & Hf & Hg & Hm & Hs); [|flat].
      each_member Hf; subst f; simplify_eq/=. eauto.
Qed.

Lemma length_limits_enforced_witness :
  is_Err (validate GraphCreate [("name", VStr (str_repeat "a"%char 201))]) ∧
  is_Err (validate NodeCreate
            [("graph_id", VInt 1); ("node_id", VStr (str_repeat "n"%char 101))]) ∧
  (200%nat = 200%nat ∧
   ∃ s, assoc "name" [("name", VStr (str_repeat "a"%char 201))] = Some (VStr s) ∧
        (200 < String.length s)%nat) ∧
  (100%nat = 100%nat ∧
   ∃ s, assoc "id" [("id", VStr (str_repeat "n"%char 101))] = Some (VStr s) ∧
        (100 < String.length s)%nat).
Proof.
  destruct length_limits_enforced as (H1 & H2 & H3 & H4).
  split; [|split; [|split]].
  - apply (H1 GraphCreate _ (str_repeat "a"%char 201)).
    + unfold name_schemas. apply elem_of_cons; right. apply elem_of_cons; by left.
    + reflexivity.
    + vm_compute. lia.
  - apply (H2 NodeCreate "node_id" _ (str_repeat "n"%char 101)).
    + unfold node_id_schemas. apply elem_of_cons; by left.
    + reflexivity.
    + vm_compute. lia.
  - apply (H3 GraphCreate).
    + unfold name_schemas. apply elem_of_cons; right. apply elem_of_cons; by left.
    + vm_compute. reflexivity.
  - apply (H4 NodeData "id").
    + unfold node_id_schemas. apply elem_of_cons; right. apply elem_of_cons; by left.
    + vm_compute. reflexivity.
Defined.

(** C9.  The defaults of [GraphInput]: a field the input omits is read as
    name = "Untitled Graph", description = "", nodes = [], edges = [],
    properties = None; in particular the empty input validates, to exactly
    these values. *)
Theorem GraphInput_defaults :
  validate GraphInput [] =
    Ok [ ("name", VStr "Untitled Graph"); ("description", VStr "");
         ("nodes", VList []); ("edges", VList []); ("properties", VNone) ] ∧
  ∀ raw v, validate GraphInput raw = Ok v →
    (assoc "name" raw = None → assoc "name" v = Some (VStr "Untitled Graph")) ∧
    (assoc "description" raw = None → assoc "description" v = Some (VStr "")) ∧
    (assoc "nodes" raw = None → assoc "nodes" v = Some (VList [])) ∧
    (assoc "edges" raw = None → assoc "edges" v = Some (VList [])) ∧
    (assoc "properties" raw = None → assoc "properties" v = Some VNone).
Proof.
  split; [done|]. intros raw v Hv.
  assert (Hnd : NoDup (fld_name <$> GraphInput)).
  { simpl. repeat (apply NoDup_cons; split;
      [rewrite ?not_elem_of_cons; split_and?; (done || apply not_elem_of_nil)|]).
    apply NoDup_nil_2. }
  assert (Hall : ∀ f d, f ∈ GraphInput → fld_default f = Some d →
            assoc (fld_name f) raw = None → assoc (fld_name f) v = Some d).
  { intros f d Hf Hd Hraw.
    destruct (validate_fields_lookup _ _ _ _ Hnd Hv Hf) as (x & Hx & ->).
    unfold validate_field in Hx. rewrite Hraw, Hd in Hx. congruence. }
  split_and!; intros Hraw.
  - eapply (Hall (Fld "name" _ _ _ _)); [|done..].
    apply elem_of_cons; by left.
  - eapply (Hall (Fld "description" _ _ _ _)); [|done..].
    do 1 (apply elem_of_cons; right). apply elem_of_cons; by left.
  - eapply (Hall (Fld "nodes" _ _ _ _)); [|done..].
    do 2 (apply elem_of_cons; right). apply elem_of_cons; by left.
  - eapply (Hall (Fld "edges" _ _ _ _)); [|done..].
    do 3 (apply elem_of_cons; right). apply elem_of_cons; by left.
  - eapply (Hall (Fld "properties" _ _ _ _)); [|done..].
    do 4 (apply elem_of_cons; right). apply elem_of_cons; by left.
Qed.

Lemma GraphInput_defaults_witness :
  assoc "name" [("description", VStr "d")] = None ∧
  assoc "name" [ ("name", VStr "Untitled Graph"); ("description", VStr "d");
                 ("nodes", VList []); ("edges", VList []);
                 ("properties", VNone) ]
  = Some (VStr "Untitled Graph").
Proof.
  split; [reflexivity|].
  refine (proj1 (proj2 GraphInput_defaults [("description", VStr "d")] _ _) _).
  - vm_compute. reflexivity.
  - reflexivity.
Defined.

(** C10.  Every field of [GraphUpdate], [NodeUpdate] and [EdgeUpdate] is
    optional with default [None].  So an update request may supply any
    subset of the fields: the empty request validates, with every field
    [None]; and leaving any set of fields out of a valid request gives a
    valid request, in which the fields left out read [None] (no change asked
    for) and the fields kept read as before. *)
Theorem update_schemas_partial :
  ∀ sch, sch ∈ update_schemas →
    Forall (λ f, fld_optional f = true ∧ fld_default f = Some VNone) sch ∧
    validate sch [] = Ok (all_none sch) ∧
    ∀ raw v keep, validate sch raw = Ok v →
      validate sch (restrict keep raw) = Ok (blank keep v).
Proof.
  intros sch Hsch.
  assert (Hopt : Forall (λ f, fld_optional f = true ∧
                              fld_default f = Some VNone) sch).
  { each_member Hsch; subst sch; repeat constructor. }
  split_and!; [done| |].
  - each_member Hsch; by subst sch.
  - intros raw v keep Hv. apply validate_fields_restrict; [|done].
    eapply Forall_impl; [exact Hopt|]. by intros f [_ ?].
Qed.

Lemma update_schemas_partial_witness :
  validate NodeUpdate
    (restrict (λ k, String.eqb k "label")
              [("label", VStr "A"); ("x", VInt 1)]) =
  Ok (blank (λ k, String.eqb k "label")
        [ ("label", VStr "A"); ("x", VFloat (PyFloat 1 0)); ("y", VNone);
          ("style", VNone); ("data", VNone) ]).
Proof.
  refine (proj2 (proj2 (update_schemas_partial NodeUpdate _)) _ _ _ _).
  - unfold update_schemas. apply elem_of_cons; right. apply elem_of_cons; by left.
  - vm_compute. reflexivity.
Defined.

(** * The store: lemmas *)

Section rows.
Context {A : Type} (key : A → option Z).
Implicit Types (rows : list A) (k : Z) (a : A).

Lemma has_pk_true k rows :
  has_pk key k rows = true ↔ ∃ a, row_at key rows k a.
Proof.
  unfold has_pk, row_at. rewrite existsb_exists. split.
  - intros (a & Ha%list_elem_of_In & Hk%bool_decide_eq_true). eauto.
  - intros (a & Ha%list_elem_of_In & Hk). exists a.
    by rewrite bool_decide_eq_true.
Qed.

Lemma has_pk_false k rows :
  has_pk key k rows = false ↔ Some k ∉ key <$> rows.
Proof.
  rewrite <- not_true_iff_false, has_pk_true, list_elem_of_fmap.
  unfold row_at. split.
  - intros Hno (a & Hk & Ha). apply Hno. eauto.
  - intros Hno (a & Ha & Hk). apply Hno. eauto.
Qed.

Lemma row_at_app_l rows rows' k a :
  row_at key rows k a → row_at key (rows ++ rows') k a.
Proof. intros [? ?]. split; [apply elem_of_app; by left|done]. Qed.

Lemma row_at_unique rows k a b :
  NoDup (key <$> rows) → row_at key rows k a → row_at key rows k b → a = b.
Proof.
  intros Hnd [Ha Hka] [Hb Hkb]. revert Hnd Ha Hb.
  induction rows as [|c rows IH]; [by intros _ ?%elem_of_nil|].
  rewrite fmap_cons, NoDup_cons, !elem_of_cons.
  intros [Hc Hnd] [->|Ha] [->|Hb]; auto.
  - exfalso. apply Hc. rewrite Hka, <- Hkb. by apply list_elem_of_fmap_2.
  - exfalso. apply Hc. rewrite Hkb, <- Hka. by apply list_elem_of_fmap_2.
Qed.

Lemma key_inj rows a b :
  NoDup (key <$> rows) → a ∈ rows → b ∈ rows → key a = key b → a = b.
Proof.
  intros Hnd Ha Hb Hk. revert Hnd Ha Hb.
  induction rows as [|c rows IH]; [by intros _ ?%elem_of_nil|].
  rewrite fmap_cons, NoDup_cons, !elem_of_cons.
  intros [Hc Hnd] [->|Ha] [->|Hb]; auto.
  - exfalso. apply Hc. rewrite Hk. by apply list_elem_of_fmap_2.
  - exfalso. apply Hc. rewrite <- Hk. by apply list_elem_of_fmap_2.
Qed.



Lemma NoDup_key_filter (P : A → Prop) `{!∀ a, Decision (P a)} rows :
  NoDup (key <$> rows) → NoDup (key <$> filter P rows).
Proof.
  intros Hnd. eapply sublist_NoDup; [done|].
  apply fmap_sublist, sublist_filter.
Qed.

Lemma NoDup_key_snoc rows a k :
  NoDup (key <$> rows) → key a = Some k → has_pk key k rows = false →
  NoDup (key <$> (rows ++ [a])).
Proof.
  intros Hnd Hk Hfresh%has_pk_false.
  rewrite fmap_app. apply NoDup_app. split_and!; [done| |].
  - intros x Hx. simpl. rewrite Hk. intros ->%list_elem_of_singleton. done.
  - simpl. apply NoDup_singleton.
Qed.

Lemma replace_row_keys rows k new :
  key new = Some k → key <$> replace_row key k new rows = key <$> rows.
Proof.
  intros Hk. unfold replace_row. rewrite <- list_fmap_compose.
  apply list_fmap_ext. intros i a _. simpl. by case_bool_decide; [congruence|].
Qed.

Lemma elem_of_replace_row rows k new a :
  a ∈ replace_row key k new rows → a = new ∨ a ∈ rows.
Proof.
  unfold replace_row. intros (b & -> & Hb)%list_elem_of_fmap.
  case_bool_decide; auto.
Qed.

(** Replacing a row keeps the set of keys. *)
Lemma row_at_replace_row rows k new j a :
  key new = Some k → row_at key rows j a →
  ∃ b, row_at key (replace_row key k new rows) j b.
Proof.
  intros Hk [Ha Hj]. unfold row_at, replace_row.
  exists (if bool_decide (key a = Some k) then new else a). split.
  - apply list_elem_of_fmap. eauto.
  - case_bool_decide; congruence.
Qed.

Lemma row_at_filter (P : A → Prop) `{!∀ a, Decision (P a)} rows k a :
  row_at key rows k a → P a → row_at key (filter P rows) k a.
Proof. intros [? ?] ?. split; [by apply list_elem_of_filter|done]. Qed.

Lemma without_nil rows : without key [] rows = rows.
Proof.
  unfold without. induction rows as [|a rows IH]; [done|].
  rewrite filter_cons_True; [by rewrite IH|]. simpl. apply not_elem_of_nil.
Qed.

Lemma elem_of_without gone rows a :
  a ∈ without key gone rows ↔ (key a ∉ (key <$> gone)) ∧ a ∈ rows.
Proof.
  unfold without.
  apply (list_elem_of_filter (λ a, key a ∉ (key <$> gone))).
Qed.
End rows.

Lemma require_Ok b e u : require b e = Ok u → b = true.
Proof. by destruct b. Qed.

(** A relationship without delete cascade lets the delete through only when
    there is no child. *)
Lemma orphans_plain {A} rel fk (children gone : list A) :
  cascade_delete rel = false → orphans rel fk children = Ok gone →
  children = [] ∧ gone = [].
Proof.
  unfold orphans. intros ->. destruct children; [|done]. by intros [= <-].
Qed.

Lemma orphans_cascade {A} rel fk (children gone : list A) :
  cascade_delete rel = true → orphans rel fk children = Ok gone →
  gone = children.
Proof. unfold orphans. intros ->. by intros [= <-]. Qed.

Lemma filter_nil_not {A} (P : A → Prop) `{!∀ a, Decision (P a)} (l : list A) a :
  filter P l = [] → a ∈ l → ¬ P a.
Proof.
  intros Hnil Ha HP.
  assert (a ∈ filter P l) as Hin by by apply list_elem_of_filter.
  rewrite Hnil in Hin. by apply elem_of_nil in Hin.
Qed.

Lemma filter_none {A} (P : A → Prop) `{!∀ a, Decision (P a)} (l : list A) :
  (∀ a, a ∈ l → ¬ P a) → filter P l = [].
Proof.
  induction l as [|a l IH]; intros Hno; [done|].
  rewrite filter_cons_False; [|apply Hno, elem_of_cons; by left].
  apply IH. intros b Hb. apply Hno, elem_of_cons. by right.
Qed.

Lemma to_numeric_is_numeric ty d d' :
  to_numeric ty d = Some d' → is_numeric ty d'.
Proof.
  unfold to_numeric, is_numeric.
  destruct (Z.abs _ <? _) eqn:Hlt; [|done].
  intros [= <-]. simpl. split; [done|]. by apply Z.ltb_lt.
Qed.

Lemma numeric_column_Ok ty column v v' :
  numeric_column ty column v = Ok v' → numeric_opt ty v'.
Proof.
  destruct v as [d|]; simpl; [|by intros [= <-]].
  destruct (to_numeric ty d) as [d'|] eqn:Hd; [|done].
  intros [= <-]. simpl. by eapply to_numeric_is_numeric.
Qed.

(** Inversion of a monadic bind that succeeds. *)
Ltac bind_inv H :=
  repeat match type of H with
  | mbind _ ?e = Ok _ =>
      let E := fresh "E" in
      destruct e eqn:E; simpl in H; [|discriminate H]
  | (let '(_, _) := ?p in _) = Ok _ =>
      let E := fresh "E" in destruct p eqn:E
  end.

(** ** What each operation does when it succeeds *)

Lemma check_graph_Ok db g g' : check_graph db g = Ok g' → g' = g.
Proof. unfold check_graph. intros H. bind_inv H. by injection H. Qed.

Lemma check_node_Ok db n n' :
  check_node db n = Ok n' →
  (∃ g, row_at Graph.id (graphs db) (Node.graph_id n) g) ∧
  ∃ x' y', n' = Node.with_xy x' y' n ∧
           numeric_opt Node.x_type x' ∧ numeric_opt Node.y_type y'.
Proof.
  unfold check_node. intros H. bind_inv H. injection H as <-.
  split.
  - apply has_pk_true. by eapply require_Ok.
  - do 2 eexists. split_and!; [done|by eapply numeric_column_Ok..].
Qed.

Lemma check_edge_Ok db e e' :
  check_edge db e = Ok e' →
  (∃ g, row_at Graph.id (graphs db) (Edge.graph_id e) g) ∧
  (∃ s, row_at Node.id (nodes db) (Edge.source_node_id e) s) ∧
  (∃ t, row_at Node.id (nodes db) (Edge.target_node_id e) t) ∧
  ∃ w', e' = Edge.with_weight w' e ∧ numeric_opt Edge.weight_type w'.
Proof.
  unfold check_edge. intros H. bind_inv H. injection H as <-.
  split_and!; try (apply has_pk_true; by eapply require_Ok).
  eexists. split; [done|by eapply numeric_column_Ok].
Qed.

Lemma add_graph_Ok db g db' k :
  add_graph db g = Ok (db', k) →
  has_pk Graph.id k (graphs db) = false ∧
  ∃ seq, db' = MkDB (graphs db ++ [Graph.with_id k g]) (nodes db) (edges db)
                    seq (nodes_seq db) (edges_seq db).
Proof.
  unfold add_graph. intros H. bind_inv H. injection H as <- <-.
  match goal with H : check_graph _ _ = _ |- _ =>
    apply check_graph_Ok in H as -> end.
  split; [|eauto].
  match goal with H : require _ _ = _ |- _ => apply require_Ok in H end.
  by apply negb_true_iff.
Qed.

Lemma add_node_Ok db n db' k :
  add_node db n = Ok (db', k) →
  has_pk Node.id k (nodes db) = false ∧
  ∃ n1 seq, check_node db n = Ok n1 ∧
    db' = MkDB (graphs db) (nodes db ++ [Node.with_id k n1]) (edges db)
               (graphs_seq db) seq (edges_seq db).
Proof.
  unfold add_node. intros H. bind_inv H. injection H as <- <-.
  split; [|eauto].
  match goal with H : require _ _ = _ |- _ => apply require_Ok in H end.
  by apply negb_true_iff.
Qed.

Lemma add_edge_Ok db e db' k :
  add_edge db e = Ok (db', k) →
  has_pk Edge.id k (edges db) = false ∧
  ∃ e1 seq, check_edge db e = Ok e1 ∧
    db' = MkDB (graphs db) (nodes db) (edges db ++ [Edge.with_id k e1])
               (graphs_seq db) (nodes_seq db) seq.
Proof.
  unfold add_edge. intros H. bind_inv H. injection H as <- <-.
  split; [|eauto].
  match goal with H : require _ _ = _ |- _ => apply require_Ok in H end.
  by apply negb_true_iff.
Qed.

Lemma update_graph_Ok db k g db' :
  update_graph db k g = Ok db' →
  db' = MkDB (replace_row Graph.id k (Graph.with_id k g) (graphs db))
             (nodes db) (edges db)
             (graphs_seq db) (nodes_seq db) (edges_seq db).
Proof.
  unfold update_graph. intros H. bind_inv H. injection H as <-.
  match goal with H : check_graph _ _ = _ |- _ =>
    by apply check_graph_Ok in H as -> end.
Qed.

Lemma update_node_Ok db k n db' :
  update_node db k n = Ok db' →
  ∃ n1, check_node db n = Ok n1 ∧
    db' = MkDB (graphs db)
               (replace_row Node.id k (Node.with_id k n1) (nodes db))
               (edges db) (graphs_seq db) (nodes_seq db) (edges_seq db).
Proof. unfold update_node. intros H. bind_inv H. injection H as <-. eauto. Qed.

Lemma update_edge_Ok db k e db' :
  update_edge db k e = Ok db' →
  ∃ e1, check_edge db e = Ok e1 ∧
    db' = MkDB (graphs db) (nodes db)
               (replace_row Edge.id k (Edge.with_id k e1) (edges db))
               (graphs_seq db) (nodes_seq db) (edges_seq db).
Proof. unfold update_edge. intros H. bind_inv H. injection H as <-. eauto. Qed.

Lemma delete_edge_Ok db k db' :
  delete_edge db k = Ok db' →
  db' = MkDB (graphs db) (nodes db)
             (filter (λ e, Edge.id e ≠ Some k) (edges db))
             (graphs_seq db) (nodes_seq db) (edges_seq db).
Proof. unfold delete_edge. intros H. bind_inv H. by injection H. Qed.

(** A node is deleted only when no edge starts or ends at it; the edges
    are left as they are. *)
Lemma delete_node_Ok db k db' :
  delete_node db k = Ok db' →
  (∃ n, row_at Node.id (nodes db) k n) ∧
  (∀ e, e ∈ edges db →
        Edge.source_node_id e ≠ k ∧ Edge.target_node_id e ≠ k) ∧
  db' = MkDB (graphs db) (filter (λ n, Node.id n ≠ Some k) (nodes db))
             (edges db) (graphs_seq db) (nodes_seq db) (edges_seq db).
Proof.
  unfold delete_node. intros H. bind_inv H. injection H as <-.
  repeat match goal with
  | H : require _ _ = _ |- _ => apply require_Ok, has_pk_true in H
  | H : orphans _ _ _ = Ok _ |- _ => apply orphans_plain in H as [? ->]; [|done]
  end.
  split_and!; [done| |simpl; by rewrite without_nil].
  intros e He.
  split; [eapply (filter_nil_not (λ e, Edge.source_node_id e = k))
         |eapply (filter_nil_not (λ e, Edge.target_node_id e = k))]; eauto.
Qed.

(** A graph is deleted together with its nodes and its edges, and only when
    no other edge starts or ends at one of these nodes. *)
Lemma delete_graph_Ok db k db' :
  delete_graph db k = Ok db' →
  let dn := filter (λ n, Node.graph_id n = k) (nodes db) in
  let de := filter (λ e, Edge.graph_id e = k) (edges db) in
  (∃ g, row_at Graph.id (graphs db) k g) ∧
  (∀ e, e ∈ without Edge.id de (edges db) →
        (Some (Edge.source_node_id e) ∉ (Node.id <$> dn)) ∧
        (Some (Edge.target_node_id e) ∉ (Node.id <$> dn))) ∧
  db' = MkDB (filter (λ g, Graph.id g ≠ Some k) (graphs db))
             (without Node.id dn (nodes db))
             (without Edge.id de (edges db))
             (graphs_seq db) (nodes_seq db) (edges_seq db).
Proof.
  unfold delete_graph. intros H. bind_inv H. injection H as <-.
  repeat match goal with
  | H : require _ _ = _ |- _ => apply require_Ok, has_pk_true in H
  | H : orphans Graph.nodes _ _ = Ok _ |- _ =>
      apply orphans_cascade in H as ->; [|done]
  | H : orphans Graph.edges _ _ = Ok _ |- _ =>
      apply orphans_cascade in H as ->; [|done]
  | H : orphans _ _ _ = Ok _ |- _ => apply orphans_plain in H as [? ->]; [|done]
  end.
  simpl. split_and!; [done| |by rewrite without_nil].
  intros e He.
  split; [eapply (filter_nil_not (λ e, Some (Edge.source_node_id e) ∈ _))
         |eapply (filter_nil_not (λ e, Some (Edge.target_node_id e) ∈ _))];
    eauto.
Qed.

(** ** The invariants hold in every reachable state *)

Lemma Inv_empty : Inv empty_db.
Proof.
  split.
  - split_and!; apply NoDup_nil_2.
  - by intros n ?%elem_of_nil.
  - by intros e ?%elem_of_nil.
  - split; by intros ? ?%elem_of_nil.
Qed.

Lemma add_graph_Inv db g db' k :
  Inv db → add_graph db g = Ok (db', k) → Inv db'.
Proof.
  intros [(Hg & Hn & He) Hnfk Hefk Hnum] (Hfresh & seq & ->)%add_graph_Ok.
  split; simpl.
  - split_and!; simpl; [|done..]. by eapply NoDup_key_snoc.
  - intros n [g' Hg']%Hnfk. exists g'. by apply row_at_app_l.
  - intros e ([g' Hg'] & Hs & Ht)%Hefk. split_and!; [|done..].
    exists g'. by apply row_at_app_l.
  - done.
Qed.

Lemma add_node_Inv db n db' k :
  Inv db → add_node db n = Ok (db', k) → Inv db'.
Proof.
  intros [(Hg & Hn & He) Hnfk Hefk [Hnx Hew]]
    (Hfresh & n1 & seq & (Hgr & x' & y' & -> & Hx & Hy)%check_node_Ok & ->)%add_node_Ok.
  split; simpl.
  - split_and!; simpl; [done| |done]. by eapply NoDup_key_snoc.
  - intros m [Hm| ->%list_elem_of_singleton]%elem_of_app; [by apply Hnfk|done].
  - intros e (Hg' & [s Hs] & [t Ht])%Hefk. split_and!; [done|..].
    + exists s. by apply row_at_app_l.
    + exists t. by apply row_at_app_l.
  - split; [|done].
    intros m [Hm| ->%list_elem_of_singleton]%elem_of_app; [by apply Hnx|done].
Qed.

Lemma add_edge_Inv db e db' k :
  Inv db → add_edge db e = Ok (db', k) → Inv db'.
Proof.
  intros [(Hg & Hn & He) Hnfk Hefk [Hnx Hew]]
    (Hfresh & e1 & seq &
     (Hgr & Hs & Ht & w' & -> & Hw)%check_edge_Ok & ->)%add_edge_Ok.
  split; simpl.
  - split_and!; simpl; [done..|]. by eapply NoDup_key_snoc.
  - done.
  - intros m [Hm| ->%list_elem_of_singleton]%elem_of_app; [by apply Hefk|done].
  - split; [done|].
    intros m [Hm| ->%list_elem_of_singleton]%elem_of_app; [by apply Hew|done].
Qed.

Lemma update_graph_Inv db k g db' :
  Inv db → update_graph db k g = Ok db' → Inv db'.
Proof.
  intros [(Hg & Hn & He) Hnfk Hefk Hnum] ->%update_graph_Ok.
  split; simpl.
  - split_and!; simpl; [|done..]. by rewrite replace_row_keys.
  - intros n [g' Hg']%Hnfk. by eapply row_at_replace_row.
  - intros e ([g' Hg'] & Hs & Ht)%Hefk. split_and!; [|done..].
    by eapply row_at_replace_row.
  - done.
Qed.

Lemma update_node_Inv db k n db' :
  Inv db → update_node db k n = Ok db' → Inv db'.
Proof.
  intros [(Hg & Hn & He) Hnfk Hefk [Hnx Hew]]
    (n1 & (Hgr & x' & y' & -> & Hx & Hy)%check_node_Ok & ->)%update_node_Ok.
  split; simpl.
  - split_and!; simpl; [done| |done]. by rewrite replace_row_keys.
  - intros m [-> | Hm]%elem_of_replace_row; [done|by apply Hnfk].
  - intros e (Hg' & [s Hs] & [t Ht])%Hefk.
    split_and!; [done|by eapply row_at_replace_row..].
  - split; [|done].
    intros m [-> | Hm]%elem_of_replace_row; [done|by apply Hnx].
Qed.

Lemma update_edge_Inv db k e db' :
  Inv db → update_edge db k e = Ok db' → Inv db'.
Proof.
  intros [(Hg & Hn & He) Hnfk Hefk [Hnx Hew]]
    (e1 & (Hgr & Hs & Ht & w' & -> & Hw)%check_edge_Ok & ->)%update_edge_Ok.
  split; simpl.
  - split_and!; simpl; [done..|]. by rewrite replace_row_keys.
  - done.
  - intros m [-> | Hm]%elem_of_replace_row; [done|by apply Hefk].
  - split; [done|].
    intros m [-> | Hm]%elem_of_replace_row; [done|by apply Hew].
Qed.

Lemma delete_edge_Inv db k db' :
  Inv db → delete_edge db k = Ok db' → Inv db'.
Proof.
  intros [(Hg & Hn & He) Hnfk Hefk [Hnx Hew]] ->%delete_edge_Ok.
  split; simpl.
  - split_and!; simpl; [done..|]. by apply NoDup_key_filter.
  - done.
  - intros e [_ Hin]%list_elem_of_filter. by apply Hefk.
  - split; [done|]. intros e [_ Hin]%list_elem_of_filter. by apply Hew.
Qed.

Lemma delete_node_Inv db k db' :
  Inv db → delete_node db k = Ok db' → Inv db'.
Proof.
  intros [(Hg & Hn & He) Hnfk Hefk [Hnx Hew]]
    (_ & Hfree & ->)%delete_node_Ok.
  split; simpl.
  - split_and!; simpl; [done| |done]. by apply NoDup_key_filter.
  - intros n [_ Hin]%list_elem_of_filter. by apply Hnfk.
  - intros e Hin. destruct (Hefk e Hin) as (Hg' & [s Hs] & [t Ht]).
    destruct (Hfree e Hin) as [Hsk Htk].
    split_and!; [done|..].
    + exists s. apply (row_at_filter _ (λ n, Node.id n ≠ Some k)); [done|].
      destruct Hs as [_ ->]. congruence.
    + exists t. apply (row_at_filter _ (λ n, Node.id n ≠ Some k)); [done|].
      destruct Ht as [_ ->]. congruence.
  - split; [|done]. intros n [_ Hin]%list_elem_of_filter. by apply Hnx.
Qed.

(** A row that survives the removal of the children of graph [k] belongs to
    another graph. *)
Lemma without_children {A} (key : A → option Z) (owner : A → Z) k rows a :
  a ∈ without key (filter (λ a, owner a = k) rows) rows → owner a ≠ k.
Proof.
  intros [Hkey Ha]%elem_of_without Heq. apply Hkey.
  apply list_elem_of_fmap_2. by apply list_elem_of_filter.
Qed.

Lemma delete_graph_Inv db k db' :
  Inv db → delete_graph db k = Ok db' → Inv db'.
Proof.
  intros [(Hg & Hn & He) Hnfk Hefk [Hnx Hew]]
    (_ & Hfree & ->)%delete_graph_Ok.
  assert (Hkeep : ∀ j g, j ≠ k → row_at Graph.id (graphs db) j g →
            row_at Graph.id (filter (λ g, Graph.id g ≠ Some k) (graphs db)) j g).
  { intros j g Hj Hg'. apply (row_at_filter _ (λ g, Graph.id g ≠ Some k)); [done|].
    destruct Hg' as [_ ->]. congruence. }
  split; simpl.
  - split_and!; simpl; by apply NoDup_key_filter.
  - intros n Hin. pose proof (without_children _ Node.graph_id _ _ _ Hin) as Hne.
    apply elem_of_without in Hin as [_ Hin].
    destruct (Hnfk n Hin) as [g Hg']. exists g. by apply Hkeep.
  - intros e Hin. pose proof (without_children _ Edge.graph_id _ _ _ Hin) as Hne.
    destruct (Hfree e Hin) as [Hsk Htk].
    apply elem_of_without in Hin as [_ Hin].
    destruct (Hefk e Hin) as ([g Hg'] & [s Hs] & [t Ht]).
    split_and!.
    + exists g. by apply Hkeep.
    + exists s. split; [|apply Hs]. apply elem_of_without.
      split; [|apply Hs]. destruct Hs as [_ ->]. done.
    + exists t. split; [|apply Ht]. apply elem_of_without.
      split; [|apply Ht]. destruct Ht as [_ ->]. done.
  - split.
    + intros n [_ Hin]%elem_of_without. by apply Hnx.
    + intros e [_ Hin]%elem_of_without. by apply Hew.
Qed.

Lemma exec_Inv db op db' : Inv db → exec db op = Ok db' → Inv db'.
Proof.
  intros HI. destruct op; simpl.
  - destruct (add_graph db g) as [[d k]|] eqn:E; simpl; [|done].
    intros [= <-]. by eapply add_graph_Inv.
  - destruct (add_node db n) as [[d k]|] eqn:E; simpl; [|done].
    intros [= <-]. by eapply add_node_Inv.
  - destruct (add_edge db e) as [[d k]|] eqn:E; simpl; [|done].
    intros [= <-]. by eapply add_edge_Inv.
  - by apply update_graph_Inv.
  - by apply update_node_Inv.
  - by apply update_edge_Inv.
  - by apply delete_graph_Inv.
  - by apply delete_node_Inv.
  - by apply delete_edge_Inv.
Qed.

Lemma reachable_Inv db : reachable db → Inv db.
Proof.
  induction 1 as [|db op db' _ IH Hexec]; [apply Inv_empty|].
  by eapply exec_Inv.
Qed.

Lemma run_reachable ops db db' :
  reachable db → run db ops = Ok db' → reachable db'.
Proof.
  revert db. induction ops as [|op ops IH]; intros db Hr; simpl.
  - by intros [= <-].
  - destruct (exec db op) as [d|] eqn:E; simpl; [|done].
    apply IH. by eapply reachable_exec.
Qed.

(** * The store: the claims *)

(** The states above are reachable. *)
Lemma db_one_reachable : reachable db_one.
Proof. by apply (run_reachable ops_one empty_db); [constructor|vm_compute]. Qed.

Lemma db_across_reachable : reachable db_across.
Proof. by apply (run_reachable ops_across empty_db); [constructor|vm_compute]. Qed.

Lemma db_twice_reachable : reachable db_twice.
Proof. by apply (run_reachable ops_twice empty_db); [constructor|vm_compute]. Qed.

(** C1.  Deleting a Graph deletes its children: when the deletion of graph
    [k] is committed, the graph row is gone and no Node and no Edge with
    [graph_id = k] is left. *)
Theorem delete_graph_cascades db k db' :
  delete_graph db k = Ok db' →
  (∀ g, g ∈ graphs db' → Graph.id g ≠ Some k) ∧
  (∀ n, n ∈ nodes db' → Node.graph_id n ≠ k) ∧
  (∀ e, e ∈ edges db' → Edge.graph_id e ≠ k).
Proof.
  intros (_ & _ & ->)%delete_graph_Ok. simpl. split_and!.
  - by intros g [? _]%list_elem_of_filter.
  - intros n. apply without_children.
  - intros e. apply without_children.
Qed.

Lemma delete_graph_cascades_witness :
  delete_graph db_one 1 = Ok (MkDB [] [] [] 1 2 1) ∧
  (∀ n, n ∈ nodes (MkDB [] [] [] 1 2 1) → Node.graph_id n ≠ 1) ∧
  (∀ e, e ∈ edges (MkDB [] [] [] 1 2 1) → Edge.graph_id e ≠ 1).
Proof.
  split; [vm_compute; reflexivity|].
  refine (proj2 (delete_graph_cascades db_one 1 _ _)).
  vm_compute. reflexivity.
Defined.

(** The deletion of a graph goes through in every reachable state in which
    the edges join nodes of their own graph. *)
Lemma delete_graph_succeeds db k g :
  reachable db → endpoints_in_graph db →
  row_at Graph.id (graphs db) k g → is_Ok (delete_graph db k).
Proof.
  intros [_ _ Hefk _]%reachable_Inv Hsame Hg.
  assert (Hfree : ∀ e, e ∈ without Edge.id
                      (filter (λ e, Edge.graph_id e = k) (edges db)) (edges db) →
            ¬ Some (Edge.source_node_id e) ∈
                (Node.id <$> filter (λ n, Node.graph_id n = k) (nodes db)) ∧
            ¬ Some (Edge.target_node_id e) ∈
                (Node.id <$> filter (λ n, Node.graph_id n = k) (nodes db))).
  { intros e Hin. pose proof (without_children _ Edge.graph_id _ _ _ Hin) as Hne.
    apply elem_of_without in Hin as [_ Hin].
    destruct (Hefk e Hin) as (_ & [s Hs] & [t Ht]).
    split; intros (m & Hid & [Hk Hm]%list_elem_of_filter)%list_elem_of_fmap.
    - destruct (Hsame e m t Hin) as [Hms _]; [by split|done|]. congruence.
    - destruct (Hsame e s m Hin) as [_ Hmt]; [done|by split|]. congruence. }
  unfold delete_graph.
  rewrite (proj2 (has_pk_true Graph.id k (graphs db))); [|by exists g]. simpl.
  unfold orphans at 1 2. simpl.
  rewrite (filter_none (λ e, Some (Edge.source_node_id e) ∈ _));
    [|intros e He; by apply Hfree].
  rewrite (filter_none (λ e, Some (Edge.target_node_id e) ∈ _));
    [|intros e He; by apply Hfree].
  by eexists.
Qed.

(** X15.  The deletion of a graph leaves the nodes and the edges of the other
    graphs in place. *)
Lemma delete_graph_keeps_others db k db' :
  reachable db → delete_graph db k = Ok db' →
  (∀ n, n ∈ nodes db → Node.graph_id n ≠ k → n ∈ nodes db') ∧
  (∀ e, e ∈ edges db → Edge.graph_id e ≠ k → e ∈ edges db').
Proof.
  intros [(_ & Hn & He) _ _ _]%reachable_Inv (_ & _ & ->)%delete_graph_Ok.
  simpl. split.
  - intros n Hin Hne. apply elem_of_without. split; [|done].
    intros (m & Hkey & [Hk Hm]%list_elem_of_filter)%list_elem_of_fmap.
    apply Hne. by rewrite (key_inj Node.id _ n m Hn Hin Hm Hkey).
  - intros e Hin Hne. apply elem_of_without. split; [|done].
    intros (m & Hkey & [Hk Hm]%list_elem_of_filter)%list_elem_of_fmap.
    apply Hne. by rewrite (key_inj Edge.id _ e m He Hin Hm Hkey).
Qed.

Lemma delete_graph_keeps_others_witness :
  Node.with_id 1 node_a ∈ nodes db_across_less.
Proof.
  refine (proj1 (delete_graph_keeps_others db_across 2 db_across_less _ _)
            (Node.with_id 1 node_a) _ _).
  - apply (run_reachable ops_across empty_db); [constructor|].
    vm_compute. reflexivity.
  - vm_compute. reflexivity.
  - vm_compute. apply elem_of_cons. left. reflexivity.
  - vm_compute. discriminate.
Defined.

(** C2, as stated, fails: in the reachable state [db_across] the edge of
    graph 2 joins two nodes of graph 1.  The schema gives [Edge] a foreign
    key to [graphs.id] and two to [nodes.id], and nothing ties them. *)
Lemma edge_across_graphs :
  reachable db_across ∧ ¬ endpoints_in_graph db_across.
Proof.
  split; [apply db_across_reachable|].
  intros Hsame.
  destruct (Hsame (Edge.with_id 1 edge_across)
                  (Node.with_id 1 node_a) stored_b)
    as [Habs _]; [| | |vm_compute in Habs; discriminate Habs].
  - vm_compute. apply elem_of_cons; by left.
  - split; [|done]. vm_compute. apply elem_of_cons; by left.
  - split; [|done]. vm_compute. apply elem_of_cons; right.
    apply elem_of_cons; by left.
Qed.

(** C2, amended.  In every reachable state, every Edge references existing
    rows: its [graph_id] is the key of exactly one Graph, and its
    [source_node_id] and [target_node_id] are each the key of exactly one
    Node.  (That these nodes belong to the graph of the edge is not part of
    what the schema enforces.) *)
Theorem edge_references_resolve db e :
  reachable db → e ∈ edges db →
  (exists! g, row_at Graph.id (graphs db) (Edge.graph_id e) g) ∧
  (exists! s, row_at Node.id (nodes db) (Edge.source_node_id e) s) ∧
  (exists! t, row_at Node.id (nodes db) (Edge.target_node_id e) t).
Proof.
  intros [(Hg & Hn & _) _ Hefk _]%reachable_Inv He.
  destruct (Hefk e He) as ([g Hg'] & [s Hs] & [t Ht]).
  split_and!.
  - exists g. split; [done|]. intros g'. by apply row_at_unique.
  - exists s. split; [done|]. intros s'. by apply row_at_unique.
  - exists t. split; [done|]. intros t'. by apply row_at_unique.
Qed.

Lemma edge_references_resolve_witness :
  (exists! g, row_at Graph.id (graphs db_across) 2 g) ∧
  (exists! s, row_at Node.id (nodes db_across) 1 s) ∧
  (exists! t, row_at Node.id (nodes db_across) 2 t).
Proof.
  apply (edge_references_resolve db_across (Edge.with_id 1 edge_across)).
  - apply (run_reachable ops_across empty_db); [constructor|].
    vm_compute. reflexivity.
  - vm_compute. apply elem_of_cons. left. reflexivity.
Defined.

(** C3, as stated, fails: in the reachable state [db_one] node 1 has an
    outgoing edge, and its deletion is refused; the edge is not deleted. *)
Lemma delete_node_refused :
  reachable db_one ∧
  row_at Node.id (nodes db_one) 1 (Node.with_id 1 node_a) ∧
  delete_node db_one 1 = Err (IntegrityError "edges.source_node_id") ∧
  ¬ delete_node_cascades.
Proof.
  assert (Hrow : row_at Node.id (nodes db_one) 1 (Node.with_id 1 node_a)).
  { split; [|done]. vm_compute. apply elem_of_cons; by left. }
  split_and!; [apply db_one_reachable|done|done|].
  intros Hcasc.
  by destruct (Hcasc db_one 1 _ db_one_reachable Hrow) as (db' & Hdel & _).
Qed.

(** C3, amended.  Deleting a Node deletes no Edge.  The deletion is
    committed only when no Edge starts or ends at the node, and then the
    edges are exactly those of before; when an Edge references the node,
    the deletion is refused with an integrity error on the foreign key. *)
Theorem delete_node_restricted db k :
  (∀ db', delete_node db k = Ok db' →
     edges db' = edges db ∧
     ∀ e, e ∈ edges db →
          Edge.source_node_id e ≠ k ∧ Edge.target_node_id e ≠ k) ∧
  (∀ n e, row_at Node.id (nodes db) k n → e ∈ edges db →
     Edge.source_node_id e = k ∨ Edge.target_node_id e = k →
     ∃ fk, delete_node db k = Err (IntegrityError fk)).
Proof.
  split.
  - by intros db' (_ & Hfree & ->)%delete_node_Ok.
  - intros n e Hn He Hend. unfold delete_node.
    rewrite (proj2 (has_pk_true Node.id k (nodes db))); [|by exists n].
    simpl. unfold orphans at 1. simpl.
    destruct (filter (λ e, Edge.source_node_id e = k) (edges db))
      as [|c cs] eqn:Hout; simpl; [|by eexists].
    unfold orphans. simpl.
    destruct (filter (λ e, Edge.target_node_id e = k) (edges db))
      as [|c cs] eqn:Hinc; simpl; [|by eexists].
    exfalso. destruct Hend as [Hs|Ht].
    + by eapply (filter_nil_not (λ e, Edge.source_node_id e = k)).
    + by eapply (filter_nil_not (λ e, Edge.target_node_id e = k)).
Qed.

Lemma delete_node_restricted_witness :
  ∃ fk, delete_node db_one 1 = Err (IntegrityError fk).
Proof.
  refine (proj2 (delete_node_restricted db_one 1)
            (Node.with_id 1 node_a) stored_ab _ _ _).
  - split; [|reflexivity]. vm_compute. apply elem_of_cons. left. reflexivity.
  - vm_compute. apply elem_of_cons. left. reflexivity.
  - left. reflexivity.
Defined.

(** C6.  In every reachable state, the [graph_id] of every Node and of every
    Edge is the key of exactly one existing Graph.  (The column is declared
    [int], so it is never null; and since this holds in every state, no
    Node is left behind when its Graph goes.) *)
Theorem graph_id_resolves db :
  reachable db →
  (∀ n, n ∈ nodes db →
        exists! g, row_at Graph.id (graphs db) (Node.graph_id n) g) ∧
  (∀ e, e ∈ edges db →
        exists! g, row_at Graph.id (graphs db) (Edge.graph_id e) g).
Proof.
  intros [(Hg & _ & _) Hnfk Hefk _]%reachable_Inv. split.
  - intros n [g Hg']%Hnfk. exists g. split; [done|].
    intros g'. by apply row_at_unique.
  - intros e ([g Hg'] & _)%Hefk. exists g. split; [done|].
    intros g'. by apply row_at_unique.
Qed.

Lemma graph_id_resolves_witness :
  exists! g, row_at Graph.id (graphs db_one) 1 g.
Proof.
  refine (proj1 (graph_id_resolves db_one _) (Node.with_id 1 node_a) _).
  - apply (run_reachable ops_one empty_db); [constructor|].
    vm_compute. reflexivity.
  - vm_compute. apply elem_of_cons. left. reflexivity.
Defined.



(** C8 does not hold of the schema: [node_id] is declared with an index and
    without a uniqueness constraint, so the same node can be added twice to
    one graph.  The reachable state [db_twice] holds two distinct rows with
    the same [graph_id] and the same [node_id]. *)
Theorem node_id_repeated :
  run empty_db ops_twice = Ok db_twice ∧
  reachable db_twice ∧
  ¬ node_id_unique db_twice.
Proof.
  split_and!; [done|apply db_twice_reachable|].
  intros Huniq.
  assert (Node.with_id 1 node_a = Node.with_id 2 node_a) as Heq; [|done].
  apply Huniq; [| |done..].
  - vm_compute. apply elem_of_cons; by left.
  - vm_compute. apply elem_of_cons; right. apply elem_of_cons; by left.
Qed.

(** The store refuses, too, a graph name or a node identifier that does not
    fit its column. *)
Lemma add_graph_name_too_long db g :
  (Graph.name_max_length < String.length (Graph.name g))%nat →
  is_Err (add_graph db g).
Proof.
  intros Hlen. unfold add_graph.
  destruct (assign_id _ _) as [k seq].
  destruct (require (negb _) _); simpl; [|by eexists].
  unfold check_graph, fits.
  apply Nat.leb_gt in Hlen as ->. by eexists.
Qed.

Lemma add_node_node_id_too_long db n :
  (Node.node_id_max_length < String.length (Node.node_id n))%nat →
  is_Err (add_node db n).
Proof.
  intros Hlen. unfold add_node.
  destruct (assign_id _ _) as [k seq].
  destruct (require (negb _) _); simpl; [|by eexists].
  unfold check_node, fits.
  destruct (require (has_pk _ _ _) _); simpl; [|by eexists].
  apply Nat.leb_gt in Hlen as ->. by eexists.
Qed.

(** * Import and export: lemmas *)

Lemma validate_type_shape n t v v' :
  validate_type n t v = Ok v' → shape t v'.
Proof.
  destruct t, v; try done; try by intros [= <-].
  - rewrite validate_type_list. destruct (validate_items _ _ _); [|done].
    by intros [= <-].
  - rewrite validate_type_model. destruct (validate_fields _ _); [|done].
    by intros [= <-].
Qed.

Lemma check_max_length_Ok n ml v v' : check_max_length n ml v = Ok v' → v' = v.
Proof.
  unfold check_max_length. destruct ml, v; try by intros [= <-].
  destruct (_ <? _)%nat; [done|]. by intros [= <-].
Qed.







Lemma NoDup_names_GraphInput : NoDup (fld_name <$> GraphInput).
Proof.
  simpl. repeat (apply NoDup_cons; split;
    [rewrite ?not_elem_of_cons; split_and?; (done || apply not_elem_of_nil)|]).
  apply NoDup_nil_2.
Qed.

Ltac member := repeat first [apply elem_of_cons; by left | apply elem_of_cons; right].



















Lemma filter_all {A} (P : A → Prop) `{!∀ a, Decision (P a)} (l : list A) :
  (∀ a, a ∈ l → P a) → filter P l = l.
Proof.
  induction l as [|a l IH]; intros Hall; [done|].
  rewrite filter_cons_True; [|apply Hall, elem_of_cons; by left].
  f_equal. apply IH. intros b Hb. apply Hall, elem_of_cons. by right.
Qed.

(** A graph whose key is new has no node and no edge yet. *)
Lemma fresh_graph_children db gid :
  Inv db → has_pk Graph.id gid (graphs db) = false →
  filter (λ n, Node.graph_id n = gid) (nodes db) = [] ∧
  filter (λ e, Edge.graph_id e = gid) (edges db) = [].
Proof.
  intros [_ Hnfk Hefk _] Hfresh.
  assert (Hno : ∀ g, ¬ row_at Graph.id (graphs db) gid g).
  { intros g Hg. apply not_true_iff_false in Hfresh. apply Hfresh.
    apply has_pk_true. eauto. }
  split; apply filter_none.
  - intros n [g Hg]%Hnfk Heq. apply (Hno g). by rewrite <- Heq.
  - intros e ([g Hg] & _)%Hefk Heq. apply (Hno g). by rewrite <- Heq.
Qed.





(** * Import and export: the claim *)




(** The example of section 8: the export of G1 has two nodes and one edge,
    of weight 1.5, and it has the shape of [GraphExport]. *)
Example export_G1 :
  export_graph db_G1 1 =
    Some [ ("name", VStr "G1"); ("description", VStr "");
           ("properties", VDict []);
           ("nodes",
            VList [ VDict [ ("id", VStr "n1"); ("label", VStr "A");
                            ("x", VNone); ("y", VNone);
                            ("style", VDict []); ("data", VDict []) ];
                    VDict [ ("id", VStr "n2"); ("label", VStr "B");
                            ("x", VNone); ("y", VNone);
                            ("style", VDict []); ("data", VDict []) ] ]);
           ("edges",
            VList [ VDict [ ("id", VNone); ("source", VStr "n1");
                            ("target", VStr "n2"); ("label", VStr "");
                            ("weight", VDecimal (Dec 1500000 (-6)));
                            ("style", VDict []); ("data", VDict []) ] ]) ] ∧
  (ex ← export_graph db_G1 1; Some (validate GraphExport ex)) =
    (ex ← export_graph db_G1 1; Some (Ok ex)).
Proof. split; by vm_compute. Qed.

(** * Validation: further properties of the schemas *)

Ltac nodup_names :=
  simpl; repeat (apply NoDup_cons; split;
    [rewrite ?not_elem_of_cons; split_and?; (done || apply not_elem_of_nil)|]);
  apply NoDup_nil_2.

(** No schema declares a field twice. *)
Lemma all_schemas_NoDup sch : sch ∈ all_schemas → NoDup (fld_name <$> sch).
Proof. intros H. each_member H; subst sch; nodup_names. Qed.

Lemma all_schemas_limit_on_str sch f :
  sch ∈ all_schemas → f ∈ sch → limit_on_str f = true.
Proof.
  intros Hs Hf. each_member Hs; subst sch; each_member Hf; by subst f.
Qed.

Lemma flat_schemas_scalar sch :
  sch ∈ flat_schemas → Forall (λ f, scalar (fld_type f)) sch.
Proof. intros H. each_member H; subst sch; flat. Qed.

(** What a field validates to depends on the input only through the value
    the input holds under the name of the field. *)
Lemma validate_field_ext raw raw' f :
  assoc (fld_name f) raw = assoc (fld_name f) raw' →
  validate_field raw f = validate_field raw' f.
Proof. unfold validate_field. by intros ->. Qed.

Lemma validate_fields_ext fs raw raw' :
  (∀ f, f ∈ fs → assoc (fld_name f) raw = assoc (fld_name f) raw') →
  validate_fields fs raw = validate_fields fs raw'.
Proof.
  induction fs as [|f fs IH]; intros Heq; [done|]. simpl.
  rewrite (validate_field_ext raw raw' f), IH; [done| |].
  - intros g Hg. apply Heq, elem_of_cons. by right.
  - apply Heq, elem_of_cons. by left.
Qed.

(** X1.  Every field of every schema that declares a [max_length]: a string over
    the limit is refused.  And in the schemas without nested values a
    length error is only ever reported for such a string. *)
Theorem max_length_enforced :
  (∀ sch f raw s n, sch ∈ all_schemas → f ∈ sch →
     fld_max_length f = Some n →
     assoc (fld_name f) raw = Some (VStr s) → (n < String.length s)%nat →
     is_Err (validate sch raw)) ∧
  (∀ sch raw g n, sch ∈ flat_schemas →
     validate sch raw = Err (StringTooLong g n) →
     ∃ f s, f ∈ sch ∧ fld_name f = g ∧ fld_max_length f = Some n ∧
            assoc g raw = Some (VStr s) ∧ (n < String.length s)%nat).
Proof.
  split.
  - intros sch f raw s n Hs Hf Hm Hraw Hlen.
    pose proof (all_schemas_limit_on_str _ _ Hs Hf) as Hstr.
    unfold limit_on_str in Hstr. rewrite Hm in Hstr.
    eapply validate_fields_Err; [exact Hf|].
    eexists. eapply validate_field_too_long; [|done..].
    by destruct (fld_type f).
  - intros sch raw g n Hs Herr.
    apply flat_StringTooLong in Herr as (f & Hf & -> & Hm & s & Hraw & Hlen);
      [|by apply flat_schemas_scalar].
    by exists f, s.
Qed.

Lemma max_length_enforced_witness :
  is_Err (validate EdgeCreate
            [ ("graph_id", VInt 1); ("source_node_id", VInt 1);
              ("target_node_id", VInt 2);
              ("label", VStr (str_repeat "l"%char 201)) ]).
Proof.
  refine (proj1 max_length_enforced EdgeCreate
            (Fld "label" TStr false (Some (VStr "")) (Some 200%nat))
            _ (str_repeat "l"%char 201) 200%nat _ _ _ _ _).
  - unfold all_schemas. do 7 (apply elem_of_cons; right).
    apply elem_of_cons. left. reflexivity.
  - unfold EdgeCreate. do 4 (apply elem_of_cons; right).
    apply elem_of_cons. left. reflexivity.
  - reflexivity.
  - reflexivity.
  - vm_compute. lia.
Defined.

(** X2.  A field that the input leaves out: the schema validates only if the
    field declares a default, and the field then reads as that default.
    So a required field that is missing fails the validation. *)
Theorem omitted_fields sch raw f :
  sch ∈ all_schemas → f ∈ sch → assoc (fld_name f) raw = None →
  (∀ v, validate sch raw = Ok v →
        ∃ d, fld_default f = Some d ∧ assoc (fld_name f) v = Some d) ∧
  (fld_default f = None → is_Err (validate sch raw)).
Proof.
  intros Hs Hf Hraw.
  assert (Hfield : validate_field raw f =
            match fld_default f with
            | Some d => Ok d
            | None => Err (Missing (fld_name f))
            end).
  { unfold validate_field. by rewrite Hraw. }
  split.
  - intros v Hv.
    destruct (validate_fields_lookup _ _ _ _ (all_schemas_NoDup _ Hs) Hv Hf)
      as (x & Hx & Hl).
    rewrite Hfield in Hx. destruct (fld_default f) as [d|]; [|done].
    injection Hx as ->. eauto.
  - intros Hd. eapply validate_fields_Err; [exact Hf|].
    rewrite Hfield, Hd. by eexists.
Qed.

Lemma omitted_fields_witness :
  (∀ v, validate NodeCreate [("graph_id", VInt 1); ("node_id", VStr "n1")] = Ok v →
        ∃ d, Some (VStr "") = Some d ∧ assoc "label" v = Some d) ∧
  (Some (VStr "") = None →
   is_Err (validate NodeCreate [("graph_id", VInt 1); ("node_id", VStr "n1")])).
Proof.
  apply (omitted_fields NodeCreate [("graph_id", VInt 1); ("node_id", VStr "n1")]
           (Fld "label" TStr false (Some (VStr "")) (Some 200%nat))).
  - unfold all_schemas. do 5 (apply elem_of_cons; right).
    apply elem_of_cons. left. reflexivity.
  - unfold NodeCreate. do 2 (apply elem_of_cons; right).
    apply elem_of_cons. left. reflexivity.
  - reflexivity.
Defined.

(** X3.  An explicit [None]: the schema validates only if the field is
    [Optional], and the field then reads [None]; its default is not put in
    its place. *)
Theorem explicit_none sch raw v f :
  sch ∈ all_schemas → validate sch raw = Ok v → f ∈ sch →
  assoc (fld_name f) raw = Some VNone →
  fld_optional f = true ∧ assoc (fld_name f) v = Some VNone.
Proof.
  intros Hs Hv Hf Hraw.
  destruct (validate_fields_lookup _ _ _ _ (all_schemas_NoDup _ Hs) Hv Hf)
    as (x & Hx & Hl).
  unfold validate_field in Hx. rewrite Hraw in Hx.
  destruct (fld_optional f); [|done]. by injection Hx as <-.
Qed.

Lemma explicit_none_witness :
  true = true ∧
  assoc "name" [ ("name", VNone); ("description", VStr "");
                 ("nodes", VList []); ("edges", VList []);
                 ("properties", VNone) ] = Some VNone.
Proof.
  apply (explicit_none GraphInput [("name", VNone)] _
           (Fld "name" TStr true (Some (VStr "Untitled Graph")) (Some 200%nat))).
  - unfold all_schemas. do 2 (apply elem_of_cons; right).
    apply elem_of_cons. left. reflexivity.
  - vm_compute. reflexivity.
  - unfold GraphInput. apply elem_of_cons. left. reflexivity.
  - reflexivity.
Defined.

(** X4.  Keys that a schema does not declare play no part: two inputs that
    agree on the declared fields validate alike, and a validated result
    holds the declared fields, all of them, in the order of the
    declaration. *)
Theorem undeclared_keys_ignored sch raw raw' :
  (∀ f, f ∈ sch → assoc (fld_name f) raw = assoc (fld_name f) raw') →
  validate sch raw = validate sch raw' ∧
  ∀ v, validate sch raw = Ok v → v.*1 = fld_name <$> sch.
Proof.
  intros Heq. split; [by apply validate_fields_ext|].
  intros v. apply validate_fields_names.
Qed.

Lemma undeclared_keys_ignored_witness :
  validate NodeCreate request_node =
    validate NodeCreate [("graph_id", VInt 1); ("node_id", VStr "n1"); ("x", VInt 2)] ∧
  ∀ v, validate NodeCreate request_node = Ok v → v.*1 = fld_name <$> NodeCreate.
Proof.
  apply (undeclared_keys_ignored NodeCreate request_node).
  intros f Hf. unfold NodeCreate in Hf.
  repeat (apply elem_of_cons in Hf as [Hf|Hf]; [rewrite Hf; reflexivity|]).
  apply elem_of_nil in Hf. destruct Hf.
Defined.

(** The items of a list of nested values are validated one by one. *)
Lemma validate_items_Forall2 n fs vs items :
  validate_items n (TModel fs) vs = Ok items →
  Forall2 (item_validated fs) vs items.
Proof.
  revert items. induction vs as [|x vs IH]; intros items.
  - intros [= <-]. constructor.
  - rewrite validate_items_cons.
    destruct (validate_type n (TModel fs) x) as [x'|] eqn:Hx; [|done]. simpl.
    destruct (validate_items n (TModel fs) vs) as [r|]; [|done]. simpl.
    intros [= <-]. constructor; [|by apply IH].
    destruct x; try done. rewrite validate_type_model in Hx.
    destruct (validate_fields fs kvs) as [d|] eqn:Hd; [|done].
    injection Hx as <-. by exists kvs, d.
Qed.

Lemma validate_items_rejected n fs vs x :
  x ∈ vs → item_rejected fs x → is_Err (validate_items n (TModel fs) vs).
Proof.
  induction vs as [|y vs IH]; [by intros ?%elem_of_nil|].
  intros [<-|Hx]%elem_of_cons Hrej; rewrite validate_items_cons.
  - assert (is_Err (validate_type n (TModel fs) x)) as [e ->]; [|by eexists].
    destruct x; try by eexists.
    rewrite validate_type_model. destruct Hrej as [e He].
    unfold validate in He. rewrite He. by eexists.
  - destruct (validate_type n (TModel fs) y); simpl; [|by eexists].
    destruct (IH Hx Hrej) as [e ->]. by eexists.
Qed.

(** X5.  The nodes and the edges of a [GraphInput] are validated item by item,
    against [NodeData] and [EdgeData]: when the input validates each item
    has, and one item that is not a valid [NodeData] (or [EdgeData]), or not
    an object at all, fails the whole input. *)
Theorem GraphInput_items key sch raw vs :
  (key, sch) ∈ [("nodes", NodeData); ("edges", EdgeData)] →
  assoc key raw = Some (VList vs) →
  (∀ v, validate GraphInput raw = Ok v →
        ∃ items, assoc key v = Some (VList items) ∧
                 Forall2 (item_validated sch) vs items) ∧
  (∀ x, x ∈ vs → item_rejected sch x → is_Err (validate GraphInput raw)).
Proof.
  intros Hkey Hraw.
  assert (Hin : Fld key (TList (TModel sch)) false (Some (VList [])) None
                ∈ GraphInput).
  { each_member Hkey; simplify_eq; member. }
  set (f := Fld key (TList (TModel sch)) false (Some (VList [])) None) in *.
  assert (Hf : validate_field raw f =
               VList <$> validate_items key (TModel sch) vs).
  { unfold validate_field, f.
    cbn [fld_name fld_type fld_default fld_optional fld_max_length].
    rewrite Hraw, validate_type_list.
    by destruct (validate_items key (TModel sch) vs). }
  split.
  - intros v Hv.
    destruct (validate_fields_lookup _ _ _ _ NoDup_names_GraphInput Hv Hin)
      as (x & Hx & Hl).
    rewrite Hf in Hx.
    destruct (validate_items key (TModel sch) vs) as [items|] eqn:Hi; [|done].
    injection Hx as <-. exists items. split; [done|].
    by eapply validate_items_Forall2.
  - intros x Hx Hrej. eapply validate_fields_Err; [exact Hin|].
    rewrite Hf.
    destruct (validate_items_rejected key sch vs x Hx Hrej) as [e ->].
    by eexists.
Qed.

Lemma GraphInput_items_witness :
  is_Err (validate GraphInput
            [("nodes", VList [VDict [("id", VStr "n1")]; VDict [("label", VStr "B")]])]).
Proof.
  refine (proj2 (GraphInput_items "nodes" NodeData
                   [("nodes", VList [VDict [("id", VStr "n1")];
                                     VDict [("label", VStr "B")]])]
                   [VDict [("id", VStr "n1")]; VDict [("label", VStr "B")]] _ _)
            (VDict [("label", VStr "B")]) _ _).
  - apply elem_of_cons. left. reflexivity.
  - reflexivity.
  - apply elem_of_cons. right. apply elem_of_cons. left. reflexivity.
  - exists (Missing "id"). vm_compute. reflexivity.
Defined.

(** ** Validated results validate to themselves *)

Lemma idem_scalar t : scalar t → idem_type t.
Proof.
  intros Ht n v v'. destruct t, v; try done; by intros [= <-].
Qed.

Lemma idem_list t : idem_type t → idem_type (TList t).
Proof.
  intros Ht n v v'. destruct v as [| | | | | |vs|]; try done.
  rewrite validate_type_list.
  destruct (validate_items n t vs) as [items|] eqn:Hi; [|done].
  intros [= <-]. rewrite validate_type_list.
  assert (validate_items n t items = Ok items) as ->; [|done].
  revert items Hi. induction vs as [|x vs IH]; intros items.
  - by intros [= <-].
  - rewrite validate_items_cons.
    destruct (validate_type n t x) as [x'|] eqn:Hx; [|done]. simpl.
    destruct (validate_items n t vs) as [r|]; [|done]. simpl.
    intros [= <-]. rewrite validate_items_cons.
    by rewrite (Ht _ _ _ Hx), (IH r).
Qed.

Lemma shape_not_None t : ¬ shape t VNone.
Proof. destruct t; intros []. Qed.

(** A validated field, read back from any input that holds its value. *)
Lemma validate_field_again raw kvs f x :
  idem_type (fld_type f) → default_ok f →
  validate_field raw f = Ok x → assoc (fld_name f) kvs = Some x →
  validate_field kvs f = Ok x.
Proof.
  intros Hidem Hdef Hx Hkvs.
  unfold validate_field in Hx.
  destruct (assoc (fld_name f) raw) as [v|] eqn:Hraw.
  2:{ unfold default_ok in Hdef.
      destruct (fld_default f) as [d|]; [|done]. injection Hx as <-.
      rewrite <- Hdef. apply validate_field_ext. rewrite Hkvs. simpl.
      by rewrite String.eqb_refl. }
  assert (Hcase : (v = VNone ∧ fld_optional f = true ∧ x = VNone) ∨
                  ((v' ← validate_type (fld_name f) (fld_type f) v;
                    check_max_length (fld_name f) (fld_max_length f) v') = Ok x)).
  { destruct v; try by right.
    left. destruct (fld_optional f); [|done]. by injection Hx as <-. }
  unfold validate_field. rewrite Hkvs.
  destruct Hcase as [(_ & -> & ->)|Hb]; [done|].
  destruct (validate_type _ _ v) as [v'|] eqn:Hv; [|done]. simpl in Hb.
  pose proof (check_max_length_Ok _ _ _ _ Hb) as ->.
  pose proof (validate_type_shape _ _ _ _ Hv) as Hsh.
  pose proof (Hidem _ _ _ Hv) as Hv'.
  assert ((v' ← validate_type (fld_name f) (fld_type f) v';
           check_max_length (fld_name f) (fld_max_length f) v') = Ok v') as Hgoal.
  { rewrite Hv'. exact Hb. }
  destruct v'; first [exact Hgoal | by apply shape_not_None in Hsh].
Qed.

Lemma validate_fields_again fs raw kvs v :
  (∀ f x, f ∈ fs → validate_field raw f = Ok x → validate_field kvs f = Ok x) →
  validate_fields fs raw = Ok v → validate_fields fs kvs = Ok v.
Proof.
  revert v. induction fs as [|f fs IH]; intros v Hall; [done|].
  intros (x & v' & Hx & Hv' & ->)%validate_fields_Ok_inv. simpl.
  rewrite (Hall f x), (IH v'); [done| |done|apply elem_of_cons; by left|done].
  intros g y Hg. apply Hall, elem_of_cons. by right.
Qed.

(** A schema with distinct field names, fields whose annotations validate
    idempotently, and defaults that are valid values of their fields. *)
Lemma idem_fields fs :
  NoDup (fld_name <$> fs) →
  Forall (λ f, idem_type (fld_type f) ∧ default_ok f) fs →
  idem_schema fs.
Proof.
  intros Hnd Hfs raw v Hv. eapply validate_fields_again; [|exact Hv].
  intros f x Hf Hx.
  destruct (validate_fields_lookup _ _ _ _ Hnd Hv Hf) as (x' & Hx' & Hl).
  rewrite Hx in Hx'. injection Hx' as <-.
  rewrite Forall_forall in Hfs. destruct (Hfs f Hf) as [Hidem Hdef].
  by eapply validate_field_again.
Qed.

Lemma idem_model fs : idem_schema fs → idem_type (TModel fs).
Proof.
  intros Hfs n v v'. destruct v as [| | | | | | |kvs]; try done.
  rewrite validate_type_model.
  destruct (validate_fields fs kvs) as [d|] eqn:Hd; [|done].
  intros [= <-]. rewrite validate_type_model.
  unfold idem_schema, validate in Hfs. by rewrite (Hfs _ _ Hd).
Qed.

Ltac idem_fields_tac :=
  repeat constructor;
  first [ by apply idem_scalar
        | by apply idem_list, idem_scalar
        | done ].

Lemma idem_NodeData : idem_schema NodeData.
Proof. apply idem_fields; [nodup_names|]. idem_fields_tac. Qed.

Lemma idem_EdgeData : idem_schema EdgeData.
Proof. apply idem_fields; [nodup_names|]. idem_fields_tac. Qed.

Lemma idem_GraphInput : idem_schema GraphInput.
Proof.
  apply idem_fields; [nodup_names|].
  repeat constructor;
    first [ by apply idem_scalar
          | apply idem_list, idem_model; first [apply idem_NodeData | apply idem_EdgeData]
          | done ].
Qed.

(** X6.  Every schema of app/models.py accepts what it produces: a validated
    result, given back as input, validates to itself.  In particular every
    declared default is a valid value of its field. *)
Theorem validation_idempotent sch raw v :
  sch ∈ all_schemas → validate sch raw = Ok v → validate sch v = Ok v.
Proof.
  intros Hs. revert raw v. change (idem_schema sch).
  each_member Hs; subst sch;
    first [ apply idem_GraphInput
          | apply idem_fields; [nodup_names|idem_fields_tac] ].
Qed.

Lemma validation_idempotent_witness :
  validate NodeCreate request_node_validated = Ok request_node_validated.
Proof.
  apply (validation_idempotent NodeCreate request_node).
  - unfold all_schemas. do 5 (apply elem_of_cons; right).
    apply elem_of_cons. left. reflexivity.
  - vm_compute. reflexivity.
Defined.

(** * The store: further properties *)

Lemma fits_Ok limit s e u : require (fits limit s) e = Ok u → fits_prop limit s.
Proof. intros H%require_Ok. by apply Nat.leb_le in H. Qed.

Lemma check_graph_fits db g g' :
  check_graph db g = Ok g' →
  fits_prop Graph.name_max_length (Graph.name g) ∧
  fits_prop Graph.description_max_length (Graph.description g).
Proof.
  unfold check_graph. intros H. bind_inv H. split; by eapply fits_Ok.
Qed.

(** The checks of a node row, in full. *)
Lemma check_node_inv db n n' :
  check_node db n = Ok n' →
  fits_prop Node.node_id_max_length (Node.node_id n) ∧
  fits_prop Node.label_max_length (Node.label n) ∧
  ∃ x' y', numeric_column Node.x_type "nodes.x" (Node.x n) = Ok x' ∧
           numeric_column Node.y_type "nodes.y" (Node.y n) = Ok y' ∧
           n' = Node.with_xy x' y' n.
Proof.
  unfold check_node. intros H. bind_inv H. injection H as <-.
  split_and!; [by eapply fits_Ok..|]. eauto.
Qed.

Lemma check_edge_inv db e e' :
  check_edge db e = Ok e' →
  (∀ s, Edge.edge_id e = Some s → fits_prop Edge.edge_id_max_length s) ∧
  fits_prop Edge.label_max_length (Edge.label e) ∧
  ∃ w', numeric_column Edge.weight_type "edges.weight" (Edge.weight e) = Ok w' ∧
        e' = Edge.with_weight w' e.
Proof.
  unfold check_edge. intros H. bind_inv H. injection H as <-.
  split_and!; [|by eapply fits_Ok|eauto].
  intros s Hs.
  match goal with E : require (fits_opt _ _) _ = _ |- _ =>
    rewrite Hs in E; by eapply fits_Ok end.
Qed.

Lemma add_graph_fits db g r :
  add_graph db g = Ok r →
  fits_prop Graph.name_max_length (Graph.name g) ∧
  fits_prop Graph.description_max_length (Graph.description g).
Proof.
  unfold add_graph. intros H. bind_inv H. by eapply check_graph_fits.
Qed.

Lemma update_graph_fits db k g db' :
  update_graph db k g = Ok db' →
  fits_prop Graph.name_max_length (Graph.name g) ∧
  fits_prop Graph.description_max_length (Graph.description g).
Proof.
  unfold update_graph. intros H. bind_inv H. by eapply check_graph_fits.
Qed.

Lemma Inv2_empty : Inv2 empty_db.
Proof. split; split_and!; by intros ? ?%elem_of_nil. Qed.

Ltac snoc_cases H :=
  apply elem_of_app in H as [H|H%list_elem_of_singleton].
Ltac replaced_cases H :=
  apply elem_of_replace_row in H as [H|H].

Lemma exec_Inv2 db op db' : Inv2 db → exec db op = Ok db' → Inv2 db'.
Proof.
  intros [(Kg & Kn & Ke) (Lg & Ln & Le)]. destruct op; simpl.
  - destruct (add_graph db g) as [[d k]|] eqn:E; simpl; [|done].
    intros [= <-]. pose proof (add_graph_fits _ _ _ E) as Hfit.
    apply add_graph_Ok in E as (_ & seq & ->).
    split; split_and!; simpl; try done.
    + intros x Hx. snoc_cases Hx; [by apply Kg|by subst x].
    + intros x Hx. snoc_cases Hx; [by apply Lg|by subst x].
  - destruct (add_node db n) as [[d k]|] eqn:E; simpl; [|done].
    intros [= <-].
    apply add_node_Ok in E
      as (_ & n1 & seq & (? & ? & x' & y' & _ & _ & ->)%check_node_inv & ->).
    split; split_and!; simpl; try done.
    + intros x Hx. snoc_cases Hx; [by apply Kn|by subst x].
    + intros x Hx. snoc_cases Hx; [by apply Ln|by subst x].
  - destruct (add_edge db e) as [[d k]|] eqn:E; simpl; [|done].
    intros [= <-].
    apply add_edge_Ok in E
      as (_ & e1 & seq & (? & ? & w' & _ & ->)%check_edge_inv & ->).
    split; split_and!; simpl; try done.
    + intros x Hx. snoc_cases Hx; [by apply Ke|by subst x].
    + intros x Hx. snoc_cases Hx; [by apply Le|by subst x].
  - intros E. pose proof (update_graph_fits _ _ _ _ E) as Hfit.
    apply update_graph_Ok in E as ->.
    split; split_and!; simpl; try done.
    + intros x Hx. replaced_cases Hx; [by subst x|by apply Kg].
    + intros x Hx. replaced_cases Hx; [by subst x|by apply Lg].
  - intros (n1 & (? & ? & x' & y' & _ & _ & ->)%check_node_inv & ->)%update_node_Ok.
    split; split_and!; simpl; try done.
    + intros x Hx. replaced_cases Hx; [by subst x|by apply Kn].
    + intros x Hx. replaced_cases Hx; [by subst x|by apply Ln].
  - intros (e1 & (? & ? & w' & _ & ->)%check_edge_inv & ->)%update_edge_Ok.
    split; split_and!; simpl; try done.
    + intros x Hx. replaced_cases Hx; [by subst x|by apply Ke].
    + intros x Hx. replaced_cases Hx; [by subst x|by apply Le].
  - intros (_ & _ & ->)%delete_graph_Ok.
    split; split_and!; simpl.
    + intros x [_ Hx]%list_elem_of_filter. by apply Kg.
    + intros x [_ Hx]%elem_of_without. by apply Kn.
    + intros x [_ Hx]%elem_of_without. by apply Ke.
    + intros x [_ Hx]%list_elem_of_filter. by apply Lg.
    + intros x [_ Hx]%elem_of_without. by apply Ln.
    + intros x [_ Hx]%elem_of_without. by apply Le.
  - intros (_ & _ & ->)%delete_node_Ok.
    split; split_and!; simpl; try done.
    + intros x [_ Hx]%list_elem_of_filter. by apply Kn.
    + intros x [_ Hx]%list_elem_of_filter. by apply Ln.
  - intros ->%delete_edge_Ok.
    split; split_and!; simpl; try done.
    + intros x [_ Hx]%list_elem_of_filter. by apply Ke.
    + intros x [_ Hx]%list_elem_of_filter. by apply Le.
Qed.

Lemma reachable_Inv2 db : reachable db → Inv2 db.
Proof.
  induction 1 as [|db op db' _ IH Hexec]; [apply Inv2_empty|].
  by eapply exec_Inv2.
Qed.

(** X7.  Primary keys.  In every reachable state every row of the three tables
    carries a key, and within a table two rows with the same key are the
    same row. *)
Theorem primary_keys db :
  reachable db →
  (∀ g, g ∈ graphs db → is_Some (Graph.id g)) ∧
  (∀ n, n ∈ nodes db → is_Some (Node.id n)) ∧
  (∀ e, e ∈ edges db → is_Some (Edge.id e)) ∧
  (∀ g g', g ∈ graphs db → g' ∈ graphs db → Graph.id g = Graph.id g' → g = g') ∧
  (∀ n n', n ∈ nodes db → n' ∈ nodes db → Node.id n = Node.id n' → n = n') ∧
  (∀ e e', e ∈ edges db → e' ∈ edges db → Edge.id e = Edge.id e' → e = e').
Proof.
  intros Hr.
  destruct (reachable_Inv2 _ Hr) as [(Kg & Kn & Ke) _].
  destruct (reachable_Inv _ Hr) as [(Ug & Un & Ue) _ _ _].
  split_and!; [done..| | |].
  - intros g g'. by apply key_inj.
  - intros n n'. by apply key_inj.
  - intros e e'. by apply key_inj.
Qed.

Lemma primary_keys_witness :
  is_Some (Node.id stored_b) ∧
  (∀ n', n' ∈ nodes db_one → Node.id stored_b = Node.id n' → stored_b = n').
Proof.
  destruct (primary_keys db_one) as (_ & Kn & _ & _ & Un & _).
  - apply (run_reachable ops_one empty_db); [constructor|].
    vm_compute. reflexivity.
  - assert (Hin : stored_b ∈ nodes db_one).
    { vm_compute. apply elem_of_cons. right. apply elem_of_cons. left.
      reflexivity. }
    split; [exact (Kn _ Hin)|]. intros n'. exact (Un _ _ Hin).
Defined.



(** X9.  Every string of every stored row fits the length its column declares:
    Graph name 200 and description 1000; Node node_id 100 and label 200;
    Edge edge_id 100 and label 200; in every reachable state. *)
Theorem stored_lengths db :
  reachable db →
  (∀ g, g ∈ graphs db →
     (String.length (Graph.name g) ≤ 200)%nat ∧
     (String.length (Graph.description g) ≤ 1000)%nat) ∧
  (∀ n, n ∈ nodes db →
     (String.length (Node.node_id n) ≤ 100)%nat ∧
     (String.length (Node.label n) ≤ 200)%nat) ∧
  (∀ e, e ∈ edges db →
     (∀ s, Edge.edge_id e = Some s → (String.length s ≤ 100)%nat) ∧
     (String.length (Edge.label e) ≤ 200)%nat).
Proof. intros Hr. by destruct (reachable_Inv2 _ Hr) as [_ Hl]. Qed.

Lemma stored_lengths_witness :
  (String.length (Node.node_id stored_b) ≤ 100)%nat ∧
  (String.length (Node.label stored_b) ≤ 200)%nat.
Proof.
  refine (proj1 (proj2 (stored_lengths db_one _)) stored_b _).
  - apply (run_reachable ops_one empty_db); [constructor|].
    vm_compute. reflexivity.
  - vm_compute. apply elem_of_cons. right. apply elem_of_cons. left.
    reflexivity.
Defined.

(** ** Insert, look up, delete *)








Lemma filter_fresh_snoc {A} (key : A → option Z) k rows a :
  key a = Some k → has_pk key k rows = false →
  filter (λ r, key r ≠ Some k) (rows ++ [a]) = rows.
Proof.
  intros Hk Hfresh%has_pk_false.
  rewrite filter_app, filter_all, (filter_none _ [a]).
  - apply app_nil_r.
  - intros b ->%list_elem_of_singleton Hne. by apply Hne.
  - intros b Hb Heq. apply Hfresh. rewrite <- Heq. by apply list_elem_of_fmap_2.
Qed.

(** X12.  Insert, then delete.  In a reachable state, a Graph, a Node or an Edge
    that has just been added can be deleted again, and the three tables are
    then what they were before the insert: a new row has no children. *)
Theorem add_then_delete db :
  reachable db →
  (∀ g db1 k, add_graph db g = Ok (db1, k) →
     ∃ db2, delete_graph db1 k = Ok db2 ∧ same_tables db db2) ∧
  (∀ n db1 k, add_node db n = Ok (db1, k) →
     ∃ db2, delete_node db1 k = Ok db2 ∧ same_tables db db2) ∧
  (∀ e db1 k, add_edge db e = Ok (db1, k) →
     ∃ db2, delete_edge db1 k = Ok db2 ∧ same_tables db db2).
Proof.
  intros HI%reachable_Inv. split_and!.
  - intros g db1 k (Hfresh & seq & ->)%add_graph_Ok.
    destruct (fresh_graph_children _ _ HI Hfresh) as [Hn He].
    unfold delete_graph. simpl.
    rewrite (proj2 (has_pk_true Graph.id k _)).
    2:{ exists (Graph.with_id k g). split; [|done].
        apply elem_of_app. right. by apply list_elem_of_singleton. }
    simpl. rewrite Hn, He. unfold orphans. simpl.
    rewrite !without_nil.
    rewrite (filter_none (λ e, Some (Edge.source_node_id e) ∈ _));
      [|intros e _; apply not_elem_of_nil].
    rewrite (filter_none (λ e, Some (Edge.target_node_id e) ∈ _));
      [|intros e _; apply not_elem_of_nil].
    simpl. eexists. split; [done|]. unfold same_tables. simpl.
    rewrite !without_nil.
    by rewrite (filter_fresh_snoc Graph.id k).
  - intros n db1 k (Hfresh & n1 & seq & _ & ->)%add_node_Ok.
    assert (Hfree : ∀ e, e ∈ edges db →
              Edge.source_node_id e ≠ k ∧ Edge.target_node_id e ≠ k).
    { intros e (_ & [s Hs] & [t Ht])%(inv_edge_fk _ HI).
      apply not_true_iff_false in Hfresh.
      split; intros <-; apply Hfresh, has_pk_true; eauto. }
    unfold delete_node. simpl.
    rewrite (proj2 (has_pk_true Node.id k _)).
    2:{ exists (Node.with_id k n1). split; [|done].
        apply elem_of_app. right. by apply list_elem_of_singleton. }
    simpl.
    rewrite (filter_none (λ e, Edge.source_node_id e = k));
      [|intros e He; by apply Hfree].
    rewrite (filter_none (λ e, Edge.target_node_id e = k));
      [|intros e He; by apply Hfree].
    unfold orphans. simpl. eexists. split; [done|].
    unfold same_tables. simpl. rewrite without_nil.
    by rewrite (filter_fresh_snoc Node.id k).
  - intros e db1 k (Hfresh & e1 & seq & _ & ->)%add_edge_Ok.
    unfold delete_edge. simpl.
    rewrite (proj2 (has_pk_true Edge.id k _)).
    2:{ exists (Edge.with_id k e1). split; [|done].
        apply elem_of_app. right. by apply list_elem_of_singleton. }
    simpl. eexists. split; [done|]. unfold same_tables. simpl.
    by rewrite (filter_fresh_snoc Edge.id k).
Qed.

Lemma add_then_delete_witness :
  ∃ db2, delete_node db_twice 2 = Ok db2 ∧ same_tables db_one_node db2.
Proof.
  refine (proj1 (proj2 (add_then_delete db_one_node _)) node_a db_twice 2 _).
  - apply (run_reachable ops_one_node empty_db); [constructor|].
    vm_compute. reflexivity.
  - vm_compute. reflexivity.
Defined.

(** ** Foreign keys on insert *)




(** ** When the deletion of a graph is refused *)

(** X14.  The deletion of an existing Graph is refused exactly when an Edge of
    another graph starts or ends at one of its Nodes; the refusal is an
    integrity error. *)
Theorem delete_graph_refused db k g :
  reachable db → row_at Graph.id (graphs db) k g →
  (∀ e, foreign_edge db k e →
        ∃ c, delete_graph db k = Err (IntegrityError c)) ∧
  (∀ err, delete_graph db k = Err err → ∃ e, foreign_edge db k e).
Proof.
  intros [(_ & _ & Ue) _ _ _]%reachable_Inv Hg.
  assert (Hpk : has_pk Graph.id k (graphs db) = true).
  { apply has_pk_true. eauto. }
  set (dn := filter (λ n, Node.graph_id n = k) (nodes db)).
  set (de := filter (λ e, Edge.graph_id e = k) (edges db)).
  set (rest := without Edge.id de (edges db)).
  set (outs := filter (λ e, Some (Edge.source_node_id e) ∈ (Node.id <$> dn)) rest).
  set (incs := filter (λ e, Some (Edge.target_node_id e) ∈ (Node.id <$> dn)) rest).
  assert (Hdel : delete_graph db k =
            (out ← orphans Node.outgoing_edges "edges.source_node_id" outs;
             inc ← orphans Node.incoming_edges "edges.target_node_id" incs;
             Ok (MkDB (filter (λ g, Graph.id g ≠ Some k) (graphs db))
                      (without Node.id dn (nodes db))
                      (without Edge.id (out ++ inc) rest)
                      (graphs_seq db) (nodes_seq db) (edges_seq db)))).
  { unfold delete_graph. by rewrite Hpk. }
  assert (Hchild : ∀ e, (e ∈ outs ∨ e ∈ incs) → foreign_edge db k e).
  { intros e He.
    assert (e ∈ rest ∧
            (Some (Edge.source_node_id e) ∈ (Node.id <$> dn) ∨
             Some (Edge.target_node_id e) ∈ (Node.id <$> dn))) as [Hrest Hend].
    { destruct He as [[? ?]%list_elem_of_filter|[? ?]%list_elem_of_filter]; auto. }
    pose proof (without_children _ Edge.graph_id _ _ _ Hrest) as Hne.
    apply elem_of_without in Hrest as [_ Hin].
    split_and!; [done..|].
    destruct Hend as [(n & Hid & [Hk Hn]%list_elem_of_filter)%list_elem_of_fmap
                     |(n & Hid & [Hk Hn]%list_elem_of_filter)%list_elem_of_fmap];
      exists n; auto. }
  split.
  - intros e (Hin & Hne & n & Hn & Hk & Hend).
    assert (Hrest : e ∈ rest).
    { apply elem_of_without. split; [|done].
      intros (m & Hkey & [Hmk Hm]%list_elem_of_filter)%list_elem_of_fmap.
      apply Hne. by rewrite (key_inj Edge.id _ e m Ue Hin Hm Hkey). }
    assert (Hdn : Node.id n ∈ (Node.id <$> dn)).
    { apply list_elem_of_fmap_2. by apply list_elem_of_filter. }
    rewrite Hdel. unfold orphans at 1. simpl.
    destruct outs as [|o outs'] eqn:Houts; simpl; [|by eexists].
    unfold orphans. simpl.
    destruct incs as [|i incs'] eqn:Hincs; simpl; [|by eexists].
    exfalso. destruct Hend as [Hs|Ht].
    + eapply (filter_nil_not (λ e, Some (Edge.source_node_id e) ∈ _));
        [exact Houts|exact Hrest|]. simpl. by rewrite <- Hs.
    + eapply (filter_nil_not (λ e, Some (Edge.target_node_id e) ∈ _));
        [exact Hincs|exact Hrest|]. simpl. by rewrite <- Ht.
  - intros err. rewrite Hdel. unfold orphans at 1. simpl.
    destruct outs as [|o outs'] eqn:Houts; simpl.
    2:{ intros _. exists o. apply Hchild. left. apply elem_of_cons. by left. }
    unfold orphans. simpl.
    destruct incs as [|i incs'] eqn:Hincs; simpl; [done|].
    intros _. exists i. apply Hchild. right. apply elem_of_cons. by left.
Qed.

Lemma delete_graph_refused_witness :
  ∃ c, delete_graph db_across 1 = Err (IntegrityError c).
Proof.
  refine (proj1 (delete_graph_refused db_across 1 (Graph.with_id 1 sample_graph)
                   _ _) (Edge.with_id 1 edge_across) _).
  - apply (run_reachable ops_across empty_db); [constructor|].
    vm_compute. reflexivity.
  - split; [|reflexivity]. vm_compute. apply elem_of_cons. left. reflexivity.
  - split; [|split].
    + vm_compute. apply elem_of_cons. left. reflexivity.
    + vm_compute. discriminate.
    + exists (Node.with_id 1 node_a). split; [|split].
      * vm_compute. apply elem_of_cons. left. reflexivity.
      * reflexivity.
      * left. reflexivity.
Defined.

(** ** The two sides of each relationship *)



(** ** What a NUMERIC column keeps of a decimal *)




(** X18.  A decimal that does not fit NUMERIC(12, 6) (brought to 6 places
    it needs more than 12 digits) is not stored: the insert of a Node that
    carries it as a coordinate, or of an Edge that carries it as its weight,
    is refused, whatever the state. *)
Theorem numeric_overflow_refused db :
  (∀ n d, Node.x n = Some d ∨ Node.y n = Some d →
     to_numeric (Numeric 12 6) d = None → is_Err (add_node db n)) ∧
  (∀ e d, Edge.weight e = Some d →
     to_numeric (Numeric 12 6) d = None → is_Err (add_edge db e)).
Proof.
  split.
  - intros n d Hd Hnone. unfold add_node.
    destruct (assign_id _ _) as [k seq].
    destruct (require (negb _) _); simpl; [|by eexists].
    unfold check_node.
    destruct (require (has_pk _ _ _) _); simpl; [|by eexists].
    destruct (require (fits _ (Node.node_id n)) _); simpl; [|by eexists].
    destruct (require (fits _ (Node.label n)) _); simpl; [|by eexists].
    destruct Hd as [Hd|Hd].
    + rewrite Hd. unfold numeric_column, Node.x_type. rewrite Hnone.
      by eexists.
    + destruct (numeric_column Node.x_type _ _); simpl; [|by eexists].
      rewrite Hd. unfold numeric_column, Node.y_type. rewrite Hnone.
      by eexists.
  - intros e d Hd Hnone. unfold add_edge.
    destruct (assign_id _ _) as [k seq].
    destruct (require (negb _) _); simpl; [|by eexists].
    unfold check_edge.
    destruct (require (has_pk Graph.id _ _) _); simpl; [|by eexists].
    destruct (require (has_pk Node.id (Edge.source_node_id e) _) _); simpl;
      [|by eexists].
    destruct (require (has_pk Node.id (Edge.target_node_id e) _) _); simpl;
      [|by eexists].
    destruct (require (fits_opt _ _) _); simpl; [|by eexists].
    destruct (require (fits _ _) _); simpl; [|by eexists].
    rewrite Hd. unfold numeric_column, Edge.weight_type. rewrite Hnone.
    simpl. by eexists.
Qed.

Lemma numeric_overflow_refused_witness :
  is_Err (add_node db_one
            (Node.Make None 1 "far" "" (Some (Dec 1000000 0)) None [] [] 0)).
Proof.
  refine (proj1 (numeric_overflow_refused db_one) _ (Dec 1000000 0) _ _).
  - left. reflexivity.
  - vm_compute. reflexivity.
Defined.
